(** * Traversome command line: a shallow embedding of [traversome/__main__.py]

    The file embeds the [thorough] command and [initialize] of
    [src/traversome/__main__.py] as state-passing functions over a small
    model of the Python runtime (exceptions, the filesystem calls the
    code makes, the logger), and states the properties of the
    specification over them.  What the interpreter does with the
    selection string ([str.isdigit], [int], [float], [eval]) is a
    parameter of the command: [eval] runs the string in the scope of
    [thorough] and may do anything there.

    The estimator class [traversome.traversome.Traversome] is imported by
    the command but its code is not part of the sources at hand: inside
    [Module Cli] it is a pair of Section variables (constructor and [run])
    with arbitrary behaviour, so every theorem on the command holds for
    any estimator.  The component selector, the path enumerator and the
    checkpoints of the sampler, which live in the estimator, are modelled
    from the specification in [Module ComponentSelector],
    [Module PathEnumerator] and [Module Checkpointing]. *)

From Stdlib Require Import ZArith QArith Lia Lqa Ascii String.
From stdpp Require Import gmap strings list fin_maps sorting pretty.

Local Open Scope string_scope.
Local Open Scope list_scope.

(** ** Python runtime: exceptions, results, values *)

Module Py.

(** A [pathlib.Path] after typer's [resolve_path=True]: the components of
    an absolute path. *)
Definition path : Type := list string.

(** [str(path)]. *)
Definition path_str (p : path) : string :=
  match p with
  | [] => "/"
  | _ => String.concat "" (map (fun c => "/" +:+ c) p)
  end.

(** [path.joinpath(name)]. *)
Definition joinpath (p : path) (name : string) : path := p ++ [name].

(** The exception classes the command raises or catches by name; the
    classes of the estimator's own module are [EstimatorError cls]. *)
Inductive exn : Type :=
  | SystemExit
  | FileNotFoundError (p : path)
  | FileExistsError (p : path)
  | NotADirectoryError (p : path)
  | IsADirectoryError (p : path)
  | AssertionError (msg : string)
  | TypeError (msg : string)
  | ValueError (msg : string)
  | SyntaxError
  | NameError (name : string)
  | ZeroDivisionError
  | KeyboardInterrupt
  | EstimatorError (cls : string).

#[export] Instance exn_eq_dec : EqDecision exn.
Proof. solve_decision. Defined.

Inductive result (A : Type) : Type :=
  | Ok (a : A)
  | Raise (e : exn).
Arguments Ok {A} a.
Arguments Raise {A} e.

Definition rbind {A B} (r : result A) (k : A -> result B) : result B :=
  match r with
  | Ok a => k a
  | Raise e => Raise e
  end.

(** Python objects an [eval] of the selection string can produce, as far
    as [slice( *v )] tells them apart: iterables with their items, and
    everything else. *)
#[warnings="-register-all"]
Inductive pyval : Type :=
  | VNone
  | VInt (z : Z)
  | VFloat (q : Q)
  | VStr (s : string)
  | VTuple (items : list pyval)
  | VList (items : list pyval)
  | VOpaque (repr : string).

(** A [str] is held as its UTF-8 bytes.

    [str.isdigit()] on ASCII text: non-empty and every character a
    decimal digit.  (On other text [str.isdigit] also accepts the digits
    of other scripts and superscripts; the command takes the predicate
    of the interpreter as a parameter, this one serves the concrete
    runs.) *)
Definition is_digit_char (c : ascii) : bool :=
  (48 <=? nat_of_ascii c)%nat && (nat_of_ascii c <=? 57)%nat.

Fixpoint all_digits (s : string) : bool :=
  match s with
  | EmptyString => true
  | String c s' => is_digit_char c && all_digits s'
  end.

Definition isdigit (s : string) : bool :=
  match s with
  | EmptyString => false
  | _ => all_digits s
  end.

(** ["." in s] for a one-character needle. *)
Fixpoint contains_char (c : ascii) (s : string) : bool :=
  match s with
  | EmptyString => false
  | String d s' => Ascii.eqb c d || contains_char c s'
  end.

(** The value of a string of ASCII digits (most significant first). *)
Fixpoint int_digits_acc (acc : Z) (s : string) : Z :=
  match s with
  | EmptyString => acc
  | String c s' => int_digits_acc (10 * acc + (Z.of_nat (nat_of_ascii c) - 48)) s'
  end.

Definition int_of_digits (s : string) : Z := int_digits_acc 0 s.

(** [sys.get_int_max_str_digits()] as CPython 3.11 sets it. *)
Definition int_max_str_digits : nat := 4300.

(** [int(s)] for a string of ASCII digits: its value, unless the numeral
    is longer than the limit, which is a [ValueError]. *)
Definition int_of_ascii_digits (s : string) : result Z :=
  if (int_max_str_digits <? String.length s)%nat
  then Raise (ValueError "Exceeds the limit (4300 digits) for integer string conversion")
  else Ok (int_of_digits s).

(** The items [*v] unpacks, when [v] is iterable. *)
Definition py_iter (v : pyval) : option (list pyval) :=
  match v with
  | VTuple l | VList l => Some l
  | VStr s => Some (map (fun c => VStr (String c EmptyString)) (list_ascii_of_string s))
  | VNone | VInt _ | VFloat _ | VOpaque _ => None
  end.

(** [slice(start, stop, step)] objects. *)
Record slice : Type := Slice { start : pyval; stop : pyval; step : pyval }.

(** [slice( *v )]: [v] must be iterable and yield one to three items. *)
Definition slice_star (v : pyval) : result slice :=
  match py_iter v with
  | None => Raise (TypeError "slice() argument after * must be an iterable")
  | Some [a] => Ok (Slice VNone a VNone)
  | Some [a; b] => Ok (Slice a b VNone)
  | Some [a; b; c] => Ok (Slice a b c)
  | Some [] => Raise (TypeError "slice expected at least 1 argument, got 0")
  | Some _ => Raise (TypeError "slice expected at most 3 arguments")
  end.

End Py.
Export Py.

(** ** The filesystem calls of [initialize] and [thorough] *)

Module Fs.

Inductive kind : Type := File | Dir.

#[export] Instance kind_eq_dec : EqDecision kind.
Proof. solve_decision. Defined.

(** A filesystem: what is found at each absolute path. *)
Abbreviation fsmap := (gmap path kind).

(** [Path.exists()] and [os.path.isdir]. *)
Definition exists_ (fs : fsmap) (p : path) : bool := bool_decide (is_Some (fs !! p)).
Definition isdir (fs : fsmap) (p : path) : bool := bool_decide (fs !! p = Some Dir).

(** The directories [os.makedirs] walks through: every prefix of [p],
    shortest first, [p] itself last. *)
Fixpoint prefixes (p : path) : list path :=
  match p with
  | [] => [[]]
  | c :: p' => [] :: map (cons c) (prefixes p')
  end.

Definition mkdir_all (p : path) (fs : fsmap) : fsmap :=
  foldr (fun d acc => <[d := Dir]> acc) fs (prefixes p).

(** Where [os.makedirs(p)] stops when a plain file lies on the way: at
    the [mkdir] of the entry just below that file. *)
Definition blocked_at (p : path) (fs : fsmap) : path :=
  match find (fun d => bool_decide (fs !! d = Some File)) (prefixes p) with
  | Some d => take (S (length d)) p
  | None => p
  end.

(** [os.makedirs(p, exist_ok=...)]: an existing directory is accepted only
    with [exist_ok]; an existing file never is; a file on the way is an
    error, raised for the entry that could not be created; otherwise [p]
    and its missing ancestors are created. *)
Definition makedirs (p : path) (exist_ok : bool) (fs : fsmap) : result unit * fsmap :=
  match fs !! p with
  | Some Dir => if exist_ok then (Ok tt, fs) else (Raise (FileExistsError p), fs)
  | Some File => (Raise (FileExistsError p), fs)
  | None =>
      if existsb (fun d => bool_decide (fs !! d = Some File)) (prefixes p)
      then (Raise (NotADirectoryError (blocked_at p fs)), fs)
      else (Ok tt, mkdir_all p fs)
  end.

(** [shutil.rmtree(d, ignore_errors=True)]: a directory goes with all it
    holds; anything else (missing, a plain file) is an ignored error.
    The filesystem of the model has no permissions: every entry can be
    deleted, so no deletion is skipped as an ignored error. *)
Definition rmtree_ignore (d : path) (fs : fsmap) : fsmap :=
  if isdir fs d then filter (fun kv => ¬ d `prefix_of` kv.1) fs else fs.

(** The name of [q] inside directory [d], when [q] is an entry of [d]. *)
Definition child_name (d q : path) : option string :=
  match drop (length d) q with
  | [name] => if decide (take (length d) q = d) then Some name else None
  | _ => None
  end.

(** [fnmatch(name, "*.*")]: the name holds a dot. *)
Definition matches_star_dot_star (name : string) : bool := contains_char "." name.

(** [d.glob("*.*")]: the entries of [d] whose name holds a dot, in the
    order the directory scan yields them. *)
Definition glob_match (d q : path) : bool :=
  match child_name d q with
  | Some name => matches_star_dot_star name
  | None => false
  end.

Definition glob_star_dot_star (d : path) (fs : fsmap) : list path :=
  filter (fun q => glob_match d q = true) (map_to_list fs).*1.

(** [os.remove(q)]: only plain files can be removed. *)
Definition remove (q : path) (fs : fsmap) : result unit * fsmap :=
  match fs !! q with
  | Some File => (Ok tt, delete q fs)
  | Some Dir => (Raise (IsADirectoryError q), fs)
  | None => (Raise (FileNotFoundError q), fs)
  end.

(** Opening a log file sink (append mode): the file is created when
    missing. *)
Definition open_append (q : path) (fs : fsmap) : result unit * fsmap :=
  match fs !! q with
  | Some Dir => (Raise (IsADirectoryError q), fs)
  | Some File => (Ok tt, fs)
  | None => (Ok tt, <[q := File]> fs)
  end.

End Fs.
Export Fs.

(** ** The command: [thorough] and [initialize] *)

Module Cli.

(** *** Option types of the command *)

Inductive LogLevel : Type := TRACE | DEBUG | INFO | WARNING | ERROR.

(** [class VarGen(str, Enum)]: [Heuristic = "H"], [Provided = "U"]. *)
Inductive VarGen : Type := Heuristic | Provided.

Definition VarGen_value (g : VarGen) : string :=
  match g with
  | Heuristic => "H"
  | Provided => "U"
  end.

Inductive ModelSelectionMode : Type := AIC | BIC | Single.

(** [ChTopology] and [ChComposition]; [unspecified] is the member [none]
    of the source. *)
Inductive ChTopology : Type := circular | top_unconstrained | top_unspecified.
Inductive ChComposition : Type := single | comp_unconstrained | comp_unspecified.

(** [class Previous(str, Enum)]. *)
Inductive Previous : Type := terminate | resume | overwrite.

Definition Previous_value (p : Previous) : string :=
  match p with
  | terminate => "terminate"
  | resume => "resume"
  | overwrite => "overwrite"
  end.

#[export] Instance LogLevel_eq_dec : EqDecision LogLevel.
Proof. solve_decision. Defined.
#[export] Instance VarGen_eq_dec : EqDecision VarGen.
Proof. solve_decision. Defined.
#[export] Instance ChTopology_eq_dec : EqDecision ChTopology.
Proof. solve_decision. Defined.
#[export] Instance ChComposition_eq_dec : EqDecision ChComposition.
Proof. solve_decision. Defined.
#[export] Instance Previous_eq_dec : EqDecision Previous.
Proof. solve_decision. Defined.

(** The parameters of [thorough] as typer hands them over. *)
Record options : Type := Options {
  graph_file : path;
  reads_file : option path;
  alignment_file : option path;
  output_dir : path;
  var_gen_scheme : VarGen;
  min_valid_search : Z;
  max_valid_search : Z;
  criterion : ModelSelectionMode;
  random_seed : Z;
  topology : ChTopology;
  composition : ChComposition;
  out_seq_threshold : Q;
  min_alignment_identity_cutoff : Q;
  min_alignment_len_cutoff : Z;
  graph_component_selection : string;
  num_processes : Z;
  n_generations : Z;
  n_burn : Z;
  prev_run : Previous;
  keep_temp : bool;
  log_level : LogLevel
}.

(** What [--graph-selection] becomes: an [int], a [float] or a [slice]. *)
Inductive selection : Type :=
  | SelInt (i : Z)
  | SelFloat (r : Q)
  | SelSlice (s : slice).

(** The keyword arguments of the [Traversome(...)] call. *)
Record Traversome_args : Type := TraversomeArgs {
  a_graph : string;
  a_alignment : option string;
  a_reads_file : option string;
  a_outdir : string;
  a_model_criterion : ModelSelectionMode;
  a_out_prob_threshold : Q;
  a_min_valid_search : Z;
  a_max_valid_search : Z;
  a_num_processes : Z;
  a_force_circular : bool;
  a_n_generations : Z;
  a_n_burn : Z;
  a_random_seed : Z;
  a_loglevel : LogLevel;
  a_min_alignment_identity_cutoff : Q;
  a_min_alignment_len_cutoff : Z;
  a_graph_component_selection : selection;
  a_resume : bool
}.

(** *** Observable effects *)

Inductive sink : Type := SinkFile (p : path) | SinkStdout.

Inductive log_msg : Type := RUNNING_HEAD | RUNNING_ENV_INFO | TotalCost.

(** What the command does to the outside, in order. [CallTraversome] and
    [CallRun] mark the two entries into the estimator. *)
Inductive event : Type :=
  | StderrWrite (msg : string)
  | LoggerConfigure (sinks : list sink) (level : LogLevel)
  | LoggerInfo (msg : log_msg)
  | LoggerException (e : exn)
  | CallTraversome (args : Traversome_args)
  | CallRun (scheme : VarGen) (uni_chromosome : bool).

Record world : Type := World {
  fs : fsmap;
  environ : list (string * string);
  trace : list event
}.

(** *** The command monad: state passing with exceptions *)

Definition M (A : Type) : Type := world -> result A * world.

Definition ret {A} (a : A) : M A := fun w => (Ok a, w).

Definition bind {A B} (c : M A) (k : A -> M B) : M B :=
  fun w => match c w with
           | (Ok a, w') => k a w'
           | (Raise e, w') => (Raise e, w')
           end.

Definition raise {A} (e : exn) : M A := fun w => (Raise e, w).

Declare Scope cmd_scope.
Delimit Scope cmd_scope with cmd.
Notation "x <- c ;; k" := (bind c (fun x => k))
  (at level 100, c at next level, right associativity) : cmd_scope.
Notation "c ;; k" := (bind c (fun _ => k))
  (at level 100, right associativity) : cmd_scope.
Local Open Scope cmd_scope.

Definition emit (e : event) : M unit :=
  fun w => (Ok tt, World (fs w) (environ w) (trace w ++ [e])).

Definition get_fs : M fsmap := fun w => (Ok (fs w), w).

(** A filesystem call run inside the command. *)
Definition on_fs {A} (op : fsmap -> result A * fsmap) : M A :=
  fun w => let (r, f) := op (fs w) in (r, World f (environ w) (trace w)).

(** [os.environ[k] = v]. *)
Definition setenv (k v : string) : M unit :=
  fun w => (Ok tt, World (fs w) ((k, v) :: environ w) (trace w)).

(** [for x in xs: body(x)]. *)
Fixpoint for_each {A} (xs : list A) (body : A -> M unit) : M unit :=
  match xs with
  | [] => ret tt
  | x :: xs' => body x ;; for_each xs' body
  end.

(** [assert cond, msg]. *)
Definition assert_ (cond : bool) (msg : string) : M unit :=
  if cond then ret tt else raise (AssertionError msg).

(** [sys.exit()]. *)
Definition sys_exit {A} : M A := raise SystemExit.

(** *** [setup_simple_logger] and [initialize] *)

(** Configuring the logger opens every file sink. *)
Definition open_sink (s : sink) : M unit :=
  match s with
  | SinkFile p => on_fs (open_append p)
  | SinkStdout => ret tt
  end.

Definition setup_simple_logger (sink_list : list sink) (loglevel : LogLevel) : M unit :=
  for_each sink_list open_sink ;;
  emit (LoggerConfigure sink_list loglevel).

Definition logger_info (m : log_msg) : M unit := emit (LoggerInfo m).
Definition logger_exception (e : exn) : M unit := emit (LoggerException e).

(** [previous in ("overwrite", "resume")]: [Previous] mixes in [str], so
    a member equals its value. *)
Definition in_overwrite_resume (previous : Previous) : bool :=
  bool_decide (Previous_value previous = "overwrite") ||
  bool_decide (Previous_value previous = "resume").

Definition initialize (output_dir : path) (loglevel : LogLevel) (previous : Previous) : M unit :=
  on_fs (makedirs output_dir (in_overwrite_resume previous)) ;;
  f <- get_fs ;;
  (if bool_decide (Previous_value previous = "overwrite") && isdir f output_dir then
     on_fs (fun f => (Ok tt, rmtree_ignore (joinpath output_dir "paths") f)) ;;
     on_fs (fun f => (Ok tt, rmtree_ignore (joinpath output_dir "theano.cache") f)) ;;
     f' <- get_fs ;;
     for_each (glob_star_dot_star output_dir f') (fun exist_f => on_fs (remove exist_f))
   else ret tt) ;;
  let logfile := joinpath output_dir "traversome.log.txt" in
  setup_simple_logger [SinkFile logfile] loglevel ;;
  logger_info RUNNING_HEAD ;;
  setup_simple_logger [SinkFile logfile; SinkStdout] loglevel ;;
  logger_info RUNNING_ENV_INFO.

(** *** [thorough] *)

Section Thorough.

(** The interpreter's [str.isdigit()], [int(str)] and [float(str)], with
    whatever they return or raise: which characters count as digits and
    which numerals [int] accepts is left to the interpreter. *)
Variable py_isdigit : string -> bool.
Variable py_int : string -> result Z.
Variable py_float : string -> result Q.

(** [eval(str)] at line 317.  The string is evaluated in the scope of
    [thorough], where [initialize], [rmdir], [exit], [os] and, by then,
    the estimator class are at hand: besides returning or raising, the
    evaluation may change the filesystem, the environment and the log in
    any way.  The value stands for the object with the items
    [slice( *v )] draws from it; what drawing them does or raises counts
    as part of the evaluation, as both stand under the same handler. *)
Variable py_eval : string -> M pyval.

(** The estimator: the instance type, the constructor and [run]; both may
    change the filesystem and return or raise anything. *)
Variable Traversome : Type.
Variable Traversome_init : Traversome_args -> fsmap -> result Traversome * fsmap.
Variable Traversome_run : Traversome -> VarGen -> bool -> fsmap -> result unit * fsmap.

(** Lines 311-319: the selection string becomes an [int], a [float] or a
    [slice]; a [SyntaxError] or [TypeError] of the last form is re-raised
    as a [TypeError] naming the string.  Only the last form runs code of
    the string, so only it can change the world. *)
Definition parse_graph_selection (s : string) : M selection :=
  if py_isdigit s then
    fun w => (rbind (py_int s) (fun i => Ok (SelInt i)), w)
  else if contains_char "." s then
    fun w => (rbind (py_float s) (fun r => Ok (SelFloat r)), w)
  else
    fun w =>
      let (res, w') := py_eval s w in
      (match rbind res slice_star with
       | Ok sl => Ok (SelSlice sl)
       | Raise SyntaxError | Raise (TypeError _) =>
           Raise (TypeError (s +:+ " is invalid for --graph-selection!"))
       | Raise e => Raise e
       end, w').

Definition str_opt (p : option path) : option string := path_str <$> p.

Definition traversome_args (o : options) (sel : selection) : Traversome_args :=
  {| a_graph := path_str (graph_file o);
     a_alignment := str_opt (alignment_file o);
     a_reads_file := str_opt (reads_file o);
     a_outdir := path_str (output_dir o);
     a_model_criterion := criterion o;
     a_out_prob_threshold := out_seq_threshold o;
     a_min_valid_search := min_valid_search o;
     a_max_valid_search := max_valid_search o;
     a_num_processes := num_processes o;
     a_force_circular := bool_decide (topology o = circular);
     a_n_generations := n_generations o;
     a_n_burn := n_burn o;
     a_random_seed := random_seed o;
     a_loglevel := log_level o;
     a_min_alignment_identity_cutoff := min_alignment_identity_cutoff o;
     a_min_alignment_len_cutoff := min_alignment_len_cutoff o;
     a_graph_component_selection := sel;
     a_resume := bool_decide (Previous_value (prev_run o) = "resume") |}.

(** Lines 283-292: the check of [-f] and [-a]. *)
Definition check_inputs (o : options) : M unit :=
  f <- get_fs ;;
  let given (p : option path) := bool_decide (is_Some p) in
  let missing (p : option path) :=
    match p with Some q => negb (exists_ f q) | None => false end in
  if given (reads_file o) && given (alignment_file o) then
    emit (StderrWrite "Flags `-f` and `-a` are mutually exclusive!") ;;
    sys_exit
  else if negb (given (reads_file o)) && negb (given (alignment_file o)) then
    emit (StderrWrite
      "Either the sequence file (via `-f`) or the graph alignment (via `-a`) should be provided!") ;;
    sys_exit
  else if given (reads_file o) && missing (reads_file o) then
    raise (FileNotFoundError (default [] (reads_file o)))
  else if given (alignment_file o) && missing (alignment_file o) then
    raise (FileNotFoundError (default [] (alignment_file o)))
  else ret tt.

(** Lines 311-346: selection parsing, construction of the estimator and
    its run. *)
Definition construct_and_run (o : options) : M unit :=
  sel <- parse_graph_selection (graph_component_selection o) ;;
  let args := traversome_args o sel in
  emit (CallTraversome args) ;;
  traverser <- on_fs (Traversome_init args) ;;
  let uni := bool_decide (composition o = single) in
  emit (CallRun (var_gen_scheme o) uni) ;;
  on_fs (Traversome_run traverser (var_gen_scheme o) uni).

(** Lines 305-347: the body of the [try]. *)
Definition thorough_body (o : options) : M unit :=
  let theano_cache_dir := joinpath (output_dir o) "theano.cache" in
  setenv "THEANO_FLAGS" ("base_compiledir=" +:+ path_str theano_cache_dir) ;;
  setenv "AESARA_FLAGS" ("base_compiledir=" +:+ path_str theano_cache_dir) ;;
  assert_ (negb (bool_decide (VarGen_value (var_gen_scheme o) = "U")))
    "User-provided is under developing, please use heuristic instead!" ;;
  assert_ (min_valid_search o <=? max_valid_search o)%Z "" ;;
  construct_and_run o.

(** [try: body  except SystemExit: pass  except: logger.exception("")]. *)
Definition try_except (body : M unit) : M unit :=
  fun w => match body w with
           | (Ok _, w') => (Ok tt, w')
           | (Raise SystemExit, w') => (Ok tt, w')
           | (Raise e, w') => logger_exception e w'
           end.

Definition thorough (o : options) : M unit :=
  check_inputs o ;;
  initialize (output_dir o) (log_level o) (prev_run o) ;;
  try_except (thorough_body o) ;;
  logger_info TotalCost.

(** The estimator raises [e] when driven from filesystem [f]: in its
    constructor, or in [run] after the constructor returned. The events
    are the entries into the estimator up to that point. *)
Definition estimator_raises (o : options) (sel : selection) (f : fsmap) (e : exn)
    (f' : fsmap) (calls : list event) : Prop :=
  let args := traversome_args o sel in
  let uni := bool_decide (composition o = single) in
  (Traversome_init args f = (Raise e, f') /\ calls = [CallTraversome args]) \/
  (exists t f1, Traversome_init args f = (Ok t, f1) /\
     Traversome_run t (var_gen_scheme o) uni f1 = (Raise e, f') /\
     calls = [CallTraversome args; CallRun (var_gen_scheme o) uni]).

End Thorough.

(** *** Vocabulary for the statements *)

(** The world once the body of the [try] has set the two cache
    directory variables. *)
Definition with_cache_flags (o : options) (w : world) : world :=
  let dir := path_str (joinpath (output_dir o) "theano.cache") in
  World (fs w)
    (("AESARA_FLAGS", "base_compiledir=" +:+ dir)
       :: ("THEANO_FLAGS", "base_compiledir=" +:+ dir) :: environ w)
    (trace w).

(** The log file of a run in [out]. *)
Definition logfile_of (out : path) : path := joinpath out "traversome.log.txt".

(** What [initialize] clears from output directory [out] of filesystem
    [f] under the overwrite policy: the directories [paths] and
    [theano.cache] with all they hold, and every entry of [out] whose
    name holds a dot. *)
Definition removed_by_overwrite (out : path) (f : fsmap) (q : path) : Prop :=
  (f !! joinpath out "paths" = Some Dir /\ joinpath out "paths" `prefix_of` q) \/
  (f !! joinpath out "theano.cache" = Some Dir /\ joinpath out "theano.cache" `prefix_of` q) \/
  (exists name, q = joinpath out name /\ matches_star_dot_star name = true).

(** The events of a successful [initialize]. *)
Definition initialize_log (out : path) (lvl : LogLevel) : list event :=
  [LoggerConfigure [SinkFile (logfile_of out)] lvl;
   LoggerInfo RUNNING_HEAD;
   LoggerConfigure [SinkFile (logfile_of out); SinkStdout] lvl;
   LoggerInfo RUNNING_ENV_INFO].

(** The two entries into the estimator. *)
Definition is_estimator_call (ev : event) : Prop :=
  match ev with
  | CallTraversome _ | CallRun _ _ => True
  | _ => False
  end.

(** A command whose events all satisfy [P]. *)
Definition emits_only {A} (P : event -> Prop) (c : M A) : Prop :=
  forall w r w', c w = (r, w') -> exists evs, trace w' = trace w ++ evs /\ Forall P evs.

(** The error the specification names for a bad selection; the command
    has no such class, so it could only come from the estimator. *)
Definition InvalidSelectionSpec : exn := EstimatorError "InvalidSelectionSpec".

(** The message of the [TypeError] raised for selection string [s]. *)
Definition msg_invalid_selection (s : string) : string :=
  s +:+ " is invalid for --graph-selection!".

Definition msg_user_provided : string :=
  "User-provided is under developing, please use heuristic instead!".

(** The world after further events. *)
Definition logged (w : world) (evs : list event) : world :=
  World (fs w) (environ w) (trace w ++ evs).

(** The errors of the filesystem calls. *)
Definition is_fs_error (e : exn) : Prop :=
  match e with
  | FileNotFoundError _ | FileExistsError _ | NotADirectoryError _ | IsADirectoryError _ => True
  | _ => False
  end.

(** A command that raises nothing but exceptions in [P]. *)
Definition raises_only {A} (P : exn -> Prop) (c : M A) : Prop :=
  forall w e w', c w = (Raise e, w') -> P e.

(** Both input files given, or neither. *)
Definition both_or_neither (o : options) : Prop :=
  (is_Some (reads_file o) /\ is_Some (alignment_file o)) \/
  (reads_file o = None /\ alignment_file o = None).

(** The two messages [thorough] writes to stderr. *)
Definition msg_exclusive : string := "Flags `-f` and `-a` are mutually exclusive!".
Definition msg_missing : string :=
  "Either the sequence file (via `-f`) or the graph alignment (via `-a`) should be provided!".

End Cli.

(** ** The component selector of the estimator *)

Module ComponentSelector.

(** Modelled from the spec: a connected component of the graph model
    (missing estimator code), with its identifier and its derived weight,
    the sum of length times depth over its contigs; weights are exact
    rationals here. *)
Record component : Type := Component { cid : nat; weight : Q }.

(** Modelled from the spec: the ranking order of the component selector,
    whose code (in the estimator) is missing: descending by weight, ties
    broken by ascending component identifier. *)
Definition ranks_before (a b : component) : Prop :=
  Qlt (weight b) (weight a) \/ (Qeq (weight a) (weight b) /\ (cid a <= cid b)%nat).

#[export] Instance ranks_before_dec : RelDecision ranks_before.
Proof.
  intros a b. unfold ranks_before.
  destruct (Qlt_le_dec (weight b) (weight a)) as [Hlt | Hle].
  - left. by left.
  - destruct (Qeq_dec (weight a) (weight b)) as [Heq | Hne].
    + destruct (le_dec (cid a) (cid b)) as [Hc | Hc].
      * left. right. by split.
      * right. intros [H | [_ H]]; [ by apply Qle_not_lt in Hle | by apply Hc ].
    + right. intros [H | [H _]]; [ by apply Qle_not_lt in Hle | by apply Hne ].
Defined.

(** Modelled from the spec: the ranked list of components (missing
    estimator code). *)
Definition ranked (g : list component) : list component := merge_sort ranks_before g.

(** Modelled from the spec: the running weight of the selector (missing
    estimator code), summed from the top of a list on top of [running]. *)
Definition sum_from (running : Q) (cs : list component) : Q :=
  fold_left (fun acc c => Qplus acc (weight c)) cs running.

Definition total_weight (cs : list component) : Q := sum_from 0%Q cs.

(** Modelled from the spec: ratio selection (missing estimator code):
    accumulate weight from the top until the running fraction of the
    total weight meets or exceeds the cutoff, the crossing component
    included. *)
Fixpoint accumulate (cutoff total running : Q) (cs : list component) : list component :=
  match cs with
  | [] => []
  | c :: rest =>
      let running' := Qplus running (weight c) in
      if Qle_bool cutoff (Qdiv running' total) then [c]
      else c :: accumulate cutoff total running' rest
  end.

Inductive selector_error : Type := InvalidSelectionSpec.

(** Modelled from the spec: the ratio entry of the component selector
    (missing estimator code); a cutoff outside (0,1] is an
    [InvalidSelectionSpec]. *)
Definition select_by_ratio (cutoff : Q) (g : list component) : selector_error + list component :=
  if Qlt_le_dec 0 cutoff then
    if Qle_bool cutoff 1 then inr (accumulate cutoff (total_weight g) 0 (ranked g))
    else inl InvalidSelectionSpec
  else inl InvalidSelectionSpec.

(** Modelled from the spec: selection by rank index (missing estimator
    code); an index past the last component is an [InvalidSelectionSpec]. *)
Definition select_by_index (i : nat) (g : list component) : selector_error + list component :=
  match ranked g !! i with
  | Some c => inr [c]
  | None => inl InvalidSelectionSpec
  end.

(** Modelled from the spec: the fraction of the total weight held by the
    first [k] ranked components (the selector itself is missing). *)
Definition prefix_fraction (g : list component) (k : nat) : Q :=
  Qdiv (total_weight (take k (ranked g))) (total_weight g).

End ComponentSelector.

(** ** The path enumerator of the estimator *)

Module PathEnumerator.

Section Enumerator.

Context {rng path : Type} `{EqDecision path}.

(** One randomized walk: the completed walk and the next generator state. *)
Variable random_walk : rng -> path * rng.
(** The topology and composition constraints on a completed walk. *)
Variable valid : path -> bool.
(** Canonical form of a path (rotation and reflection of circular paths). *)
Variable canonical : path -> path.

Record search_state : Type := SearchState {
  found : list path;
  attempts : nat;
  gen : rng
}.

(** Modelled from the spec: one attempt of the path enumerator (missing
    estimator code): a walk is added when it is valid and its canonical
    form is not yet in the result set; every walk counts as an attempt. *)
Definition attempt (st : search_state) : search_state :=
  let (p, g') := random_walk (gen st) in
  let c := canonical p in
  if valid p && negb (bool_decide (c ∈ found st))
  then SearchState (found st ++ [c]) (S (attempts st)) g'
  else SearchState (found st) (S (attempts st)) g'.

(** Modelled from the spec: the enumeration loop (missing estimator code):
    it halts when [min_valid_search] distinct valid paths are collected or
    the attempt budget is used up. *)
Fixpoint search (min_valid_search budget : nat) (st : search_state) : search_state :=
  if (min_valid_search <=? length (found st))%nat then st
  else match budget with
       | O => st
       | S budget' => search min_valid_search budget' (attempt st)
       end.

(** Modelled from the spec: the failure of the path enumerator (missing
    estimator code), with its diagnostic counts. *)
Inductive enumerator_error : Type :=
  | InsufficientPathsError (n_found n_attempts : nat).

(** Modelled from the spec: the path enumerator (missing estimator code):
    the collected paths, or [InsufficientPathsError] when the minimum was
    not reached within [max_valid_search] attempts. *)
Definition enumerate (min_valid_search max_valid_search : nat) (seed : rng)
  : enumerator_error + list path :=
  let st := search min_valid_search max_valid_search (SearchState [] 0 seed) in
  if (min_valid_search <=? length (found st))%nat then inr (found st)
  else inl (InsufficientPathsError (length (found st)) (attempts st)).

(** Modelled from the spec: the state of the enumerator (missing
    estimator code) after [n] attempts, with no halting test. *)
Fixpoint after (n : nat) (st : search_state) : search_state :=
  match n with
  | O => st
  | S n' => after n' (attempt st)
  end.

(** Modelled from the spec: the invariant of the enumerator's result set
    (missing estimator code): distinct canonical forms of valid walks. *)
Definition well_collected (ps : list path) : Prop :=
  NoDup ps /\ forall c, c ∈ ps -> exists p, valid p = true /\ c = canonical p.

End Enumerator.

End PathEnumerator.

(** ** The checkpoints of the sampler of the estimator *)

Module Checkpointing.

Section Sampler.

Context {chain fingerprint : Type} `{EqDecision fingerprint}.

(** Modelled from the spec: one generation of the chain (missing
    estimator code): a proposal drawn with the generator state kept in
    the chain, accepted or not. *)
Variable generation_step : chain -> chain.

(** Modelled from the spec: an MCMCState of the sampler (missing
    estimator code): frequency vector, log-likelihood and generator
    state, held together as the chain, and the generation counter. *)
Record MCMCState : Type := State { current : chain; generation : nat }.

(** Modelled from the spec: a Checkpoint (missing estimator code): a
    serialized MCMCState with the fingerprint of the configuration that
    wrote it. *)
Record Checkpoint : Type := Saved { saved : MCMCState; config : fingerprint }.

(** Modelled from the spec: one generation of the sampler (missing
    estimator code). *)
Definition advance (s : MCMCState) : MCMCState :=
  State (generation_step (current s)) (S (generation s)).

(** Modelled from the spec: when the sampler (missing estimator code)
    serializes its state: after burn-in, at every [interval]-th
    generation. *)
Definition due (n_burn interval g : nat) : bool :=
  (n_burn <? g)%nat && (g mod interval =? 0)%nat.

(** Modelled from the spec: [todo] generations of the sampler (missing
    estimator code) from state [s], the checkpoints written on the way
    appended to the store, oldest first. *)
Fixpoint sample (fp : fingerprint) (n_burn interval todo : nat) (s : MCMCState)
    (store : list Checkpoint) : MCMCState * list Checkpoint :=
  match todo with
  | O => (s, store)
  | S todo' =>
      let s' := advance s in
      sample fp n_burn interval todo' s'
        (if due n_burn interval (generation s') then store ++ [Saved s' fp] else store)
  end.

(** Modelled from the spec: the failure of a resume (missing estimator
    code) on a checkpoint written under another configuration. *)
Inductive checkpoint_error : Type := IncompatibleCheckpointError.

(** Modelled from the spec: the state the sampler (missing estimator
    code) starts from: with [resume] the state of the latest checkpoint,
    refused when its fingerprint is not the one of this invocation;
    the fresh state without [resume] or without any checkpoint. *)
Definition start (resume : bool) (fp : fingerprint) (store : list Checkpoint)
    (fresh : MCMCState) : checkpoint_error + MCMCState :=
  if resume then
    match last store with
    | Some cp => if decide (config cp = fp) then inr (saved cp)
                 else inl IncompatibleCheckpointError
    | None => inr fresh
    end
  else inr fresh.

(** Modelled from the spec: a run of the sampler (missing estimator
    code) to [n_generations] from where [start] puts it; the final state
    is serialized in any case. *)
Definition run (resume : bool) (fp : fingerprint) (n_burn interval n_generations : nat)
    (store : list Checkpoint) (fresh : MCMCState)
  : checkpoint_error + MCMCState * list Checkpoint :=
  match start resume fp store fresh with
  | inl e => inl e
  | inr s =>
      let (s', store') := sample fp n_burn interval (n_generations - generation s) s store in
      inr (s', store' ++ [Saved s' fp])
  end.

End Sampler.

End Checkpointing.

(** ** The stages of [initialize] and the environment banner *)

Module Stages.

Import Cli.

(** Lines 379-383 of [initialize]: what the overwrite policy clears. *)
Definition clearing (output_dir : path) (previous : Previous) : M unit :=
  (f <- get_fs ;;
   if bool_decide (Previous_value previous = "overwrite") && isdir f output_dir then
     on_fs (fun f => (Ok tt, rmtree_ignore (joinpath output_dir "paths") f)) ;;
     on_fs (fun f => (Ok tt, rmtree_ignore (joinpath output_dir "theano.cache") f)) ;;
     f' <- get_fs ;;
     for_each (glob_star_dot_star output_dir f') (fun exist_f => on_fs (remove exist_f))
   else ret tt)%cmd.

(** Lines 384-389 of [initialize]: the logger is set up on the log file,
    then on the log file and stdout. *)
Definition logging (output_dir : path) (loglevel : LogLevel) : M unit :=
  (let logfile := joinpath output_dir "traversome.log.txt" in
   setup_simple_logger [SinkFile logfile] loglevel ;;
   logger_info RUNNING_HEAD ;;
   setup_simple_logger [SinkFile logfile; SinkStdout] loglevel ;;
   logger_info RUNNING_ENV_INFO)%cmd.

(** [q] lies below an entry of directory [out]. *)
Definition strictly_inside (out q : path) : Prop :=
  exists name, joinpath out name `prefix_of` q.

End Stages.

Module EnvInfo.

(** The double quote and the newline. *)
Definition dquote : ascii := ascii_of_nat 34.
Definition newline : ascii := ascii_of_nat 10.

(** Line 26: an argument that holds a space is put between double
    quotes. *)
Definition quote_arg (arg : string) : string :=
  if contains_char " " arg
  then String dquote arg +:+ String dquote EmptyString
  else arg.

(** Line 26: the [COMMAND] text, [" ".join] of the quoted arguments. *)
Definition command_line (argv : list string) : string :=
  String.concat " " (map quote_arg argv).

(** [s.replace(a, b)] for one-character [a] and [b]. *)
Fixpoint replace_char (a b : ascii) (s : string) : string :=
  match s with
  | EmptyString => EmptyString
  | String c s' => String (if Ascii.eqb c a then b else c) (replace_char a b s')
  end.

(** Lines 21-27: the banner logged by [initialize], from the interpreter
    version, [platform.uname()], the working directory and [sys.argv]. *)
Definition RUNNING_ENV_INFO (sys_version : string) (uname : list string)
    (cwd : string) (argv : list string) : string :=
  let nl := String newline EmptyString in
  nl +:+ "Python " +:+ replace_char newline " " sys_version +:+ nl +:+
  "PLATFORM:  " +:+ String.concat " " uname +:+ nl +:+
  "WORKDIR:   " +:+ cwd +:+ nl +:+
  "COMMAND:   " +:+ command_line argv +:+
  nl.

(** An argument without a double quote. *)
Definition quote_free (arg : string) : Prop := contains_char dquote arg = false.

End EnvInfo.

(** ** Sample runtime, estimators and inputs for the concrete runs *)

Module Samples.

Import Cli.

(** *** The interpreter on the sample inputs

    The theorems on the command hold for any [str.isdigit], [int],
    [float] and [eval]; the concrete runs below need them at a few ASCII
    strings.  There [str.isdigit] is [Py.isdigit] and [int] is
    [Py.int_of_ascii_digits].  [decimal_float] is [float()] on plain
    decimal notation (sign, digits, one dot), as an exact rational.
    [eval_fragment] is [eval()] on comma-separated integer literals, on
    slice notation [a:b] outside a subscript, and on lowercase words,
    none of which has an effect.  Strings outside these shapes are not
    covered: the functions answer [ValueError] and [SyntaxError] for
    them, which CPython does not always do. *)

Fixpoint split_on (c : ascii) (l : list ascii) : list (list ascii) :=
  match l with
  | [] => [[]]
  | x :: r =>
      if Ascii.eqb x c then [] :: split_on c r
      else match split_on c r with
           | h :: t => (x :: h) :: t
           | [] => [[x]]
           end
  end.

Definition digits_value (l : list ascii) : Z := int_of_digits (string_of_list_ascii l).
Definition digits_only (l : list ascii) : bool := forallb is_digit_char l.

Definition decimal_float (s : string) : result Q :=
  let bad := Raise (ValueError ("could not convert string to float: " +:+ s)) in
  let '(neg, body) :=
    match list_ascii_of_string s with
    | "-"%char :: r => (true, r)
    | "+"%char :: r => (false, r)
    | r => (false, r)
    end in
  match split_on "." body with
  | [ip; fp] =>
      if digits_only ip && digits_only fp && negb (bool_decide (ip ++ fp = [])) then
        let n := digits_value (ip ++ fp) in
        Ok (Qmake (if neg then - n else n) (Z.to_pos (10 ^ Z.of_nat (length fp))))
      else bad
  | _ => bad
  end.

Definition is_space (c : ascii) : bool := Ascii.eqb c " ".

Fixpoint drop_spaces (l : list ascii) : list ascii :=
  match l with
  | c :: r => if is_space c then drop_spaces r else l
  | [] => []
  end.

Definition trim (l : list ascii) : list ascii :=
  rev (drop_spaces (rev (drop_spaces l))).

Definition is_lower (c : ascii) : bool :=
  (97 <=? nat_of_ascii c)%nat && (nat_of_ascii c <=? 122)%nat.

(** Lowercase keywords of Python 3. *)
Definition keywords : list string :=
  ["and"; "as"; "assert"; "async"; "await"; "break"; "class"; "continue";
   "def"; "del"; "elif"; "else"; "except"; "finally"; "for"; "from";
   "global"; "if"; "import"; "in"; "is"; "lambda"; "nonlocal"; "not";
   "or"; "pass"; "raise"; "return"; "try"; "while"; "with"; "yield"].

(** Lowercase names bound where [thorough] calls [eval] to an object that
    cannot be iterated: builtins, the module's imports and globals, the
    logger.  (The lowercase parameters [criterion], [topology] and
    [composition] hold option values and are not covered.) *)
Definition bound_names : list string :=
  ["abs"; "aiter"; "all"; "anext"; "any"; "ascii"; "bin"; "bool";
   "breakpoint"; "bytearray"; "bytes"; "callable"; "chr"; "classmethod";
   "compile"; "complex"; "copyright"; "credits"; "delattr"; "dict"; "dir";
   "divmod"; "enumerate"; "eval"; "exec"; "exit"; "filter"; "float";
   "format"; "frozenset"; "getattr"; "globals"; "hasattr"; "hash"; "help";
   "hex"; "id"; "input"; "int"; "isinstance"; "issubclass"; "iter"; "len";
   "license"; "list"; "locals"; "map"; "max"; "memoryview"; "min"; "next";
   "object"; "oct"; "open"; "ord"; "pow"; "print"; "property"; "quit";
   "range"; "repr"; "reversed"; "round"; "set"; "setattr"; "slice";
   "sorted"; "staticmethod"; "str"; "sum"; "super"; "tuple"; "type";
   "vars"; "zip";
   "shutil"; "time"; "os"; "sys"; "platform"; "typer"; "inf"; "rmdir";
   "app"; "main"; "thorough"; "initialize"; "logger"].

Definition uncovered_names : list string := ["criterion"; "topology"; "composition"].

Inductive token : Type :=
  | TInt (z : Z)
  | TName (name : string)
  | TBad.

Definition classify (piece : list ascii) : token :=
  match trim piece with
  | [] => TBad
  | "-"%char :: r =>
      let r' := drop_spaces r in
      if digits_only r' && negb (bool_decide (r' = [])) then TInt (- digits_value r') else TBad
  | p =>
      if digits_only p then
        (* a literal with a leading zero must be zero *)
        match p with
        | "0"%char :: _ :: _ => if (digits_value p =? 0)%Z then TInt 0 else TBad
        | _ => TInt (digits_value p)
        end
      else if forallb is_lower p then
        let name := string_of_list_ascii p in
        if bool_decide (name ∈ keywords ++ uncovered_names) then TBad else TName name
      else TBad
  end.

Definition eval_token (t : token) : result pyval :=
  match t with
  | TInt z => Ok (VInt z)
  | TName name =>
      if bool_decide (name ∈ bound_names) then Ok (VOpaque name) else Raise (NameError name)
  | TBad => Raise SyntaxError
  end.

Fixpoint eval_tokens (ts : list token) : result (list pyval) :=
  match ts with
  | [] => Ok []
  | t :: ts' =>
      rbind (eval_token t) (fun v => rbind (eval_tokens ts') (fun vs => Ok (v :: vs)))
  end.

Definition is_bad (t : token) : bool :=
  match t with TBad => true | _ => false end.

Definition eval_fragment (s : string) : result pyval :=
  match split_on "," (list_ascii_of_string s) with
  | [p] => eval_token (classify p)
  | ps =>
      (* a trailing comma is allowed in a tuple display *)
      let ps' := match rev ps with
                 | last :: front => if bool_decide (trim last = []) then rev front else ps
                 | [] => ps
                 end in
      let ts := map classify ps' in
      if bool_decide (ts = []) || existsb is_bad ts then Raise SyntaxError
      else rbind (eval_tokens ts) (fun vs => Ok (VTuple vs))
  end.

(** An evaluation that leaves the world as it is. *)
Definition without_effects (e : string -> result pyval) : string -> M pyval :=
  fun s w => (e s, w).

(** *** Estimators for the concrete runs *)

(** An estimator whose constructor and run succeed without output. *)
Definition quiet_init (a : Traversome_args) (f : fsmap) : result unit * fsmap := (Ok tt, f).
Definition quiet_run (t : unit) (g : VarGen) (uni : bool) (f : fsmap) : result unit * fsmap :=
  (Ok tt, f).

(** An estimator whose run raises [e]. *)
Definition failing_run (e : exn) (t : unit) (g : VarGen) (uni : bool) (f : fsmap)
  : result unit * fsmap := (Raise e, f).

(** *** Inputs for the concrete runs *)

Definition graph_gfa : path := ["data"; "graph.gfa"].
Definition align_gaf : path := ["data"; "align.gaf"].
Definition reads_fq : path := ["data"; "reads.fq"].
Definition out : path := ["work"; "out"].

(** Graph and alignment on disk, no output directory yet. *)
Definition fresh_fs : fsmap :=
  list_to_map [([], Dir); (["data"], Dir); (graph_gfa, File); (align_gaf, File)].

(** The same after an earlier run left results in the output directory. *)
Definition used_fs : fsmap :=
  list_to_map [([], Dir); (["data"], Dir); (graph_gfa, File); (align_gaf, File);
               (["work"], Dir); (out, Dir);
               (out ++ ["traversome.log.txt"], File);
               (out ++ ["variants.info.tab"], File);
               (out ++ ["paths"], Dir);
               (out ++ ["paths"; "path.1.fasta"], File);
               (out ++ ["theano.cache"], Dir);
               (out ++ ["theano.cache"; "lock"], File);
               (out ++ ["README"], File)].

Definition world_of (f : fsmap) : world := World f [] [].

(** [traversome thorough -g graph.gfa -a align.gaf -o out --topo all --chr all],
    every other option at its default. *)
Definition default_options : options :=
  {| graph_file := graph_gfa;
     reads_file := None;
     alignment_file := Some align_gaf;
     output_dir := out;
     var_gen_scheme := Heuristic;
     min_valid_search := 1000;
     max_valid_search := 100000;
     criterion := AIC;
     random_seed := 12345;
     topology := top_unconstrained;
     composition := comp_unconstrained;
     out_seq_threshold := 0;
     min_alignment_identity_cutoff := 85 # 100;
     min_alignment_len_cutoff := 5000;
     graph_component_selection := "0";
     num_processes := 1;
     n_generations := 10000;
     n_burn := 1000;
     prev_run := terminate;
     keep_temp := false;
     log_level := INFO |}.

Definition with_files (o : options) (reads align : option path) : options :=
  Options (graph_file o) reads align (output_dir o) (var_gen_scheme o)
    (min_valid_search o) (max_valid_search o) (criterion o) (random_seed o)
    (topology o) (composition o) (out_seq_threshold o)
    (min_alignment_identity_cutoff o) (min_alignment_len_cutoff o)
    (graph_component_selection o) (num_processes o) (n_generations o) (n_burn o)
    (prev_run o) (keep_temp o) (log_level o).

Definition with_selection (o : options) (s : string) : options :=
  Options (graph_file o) (reads_file o) (alignment_file o) (output_dir o)
    (var_gen_scheme o) (min_valid_search o) (max_valid_search o) (criterion o)
    (random_seed o) (topology o) (composition o) (out_seq_threshold o)
    (min_alignment_identity_cutoff o) (min_alignment_len_cutoff o)
    s (num_processes o) (n_generations o) (n_burn o)
    (prev_run o) (keep_temp o) (log_level o).

Definition with_search (o : options) (lo hi : Z) : options :=
  Options (graph_file o) (reads_file o) (alignment_file o) (output_dir o)
    (var_gen_scheme o) lo hi (criterion o)
    (random_seed o) (topology o) (composition o) (out_seq_threshold o)
    (min_alignment_identity_cutoff o) (min_alignment_len_cutoff o)
    (graph_component_selection o) (num_processes o) (n_generations o) (n_burn o)
    (prev_run o) (keep_temp o) (log_level o).

Definition with_previous (o : options) (p : Previous) : options :=
  Options (graph_file o) (reads_file o) (alignment_file o) (output_dir o)
    (var_gen_scheme o) (min_valid_search o) (max_valid_search o) (criterion o)
    (random_seed o) (topology o) (composition o) (out_seq_threshold o)
    (min_alignment_identity_cutoff o) (min_alignment_len_cutoff o)
    (graph_component_selection o) (num_processes o) (n_generations o) (n_burn o)
    p (keep_temp o) (log_level o).

(** The selection parsing with the sample runtime. *)
Definition parse (s : string) : M selection :=
  parse_graph_selection isdigit int_of_ascii_digits decimal_float
    (without_effects eval_fragment) s.

(** The command with the sample runtime and the quiet estimator. *)
Definition run_quiet (o : options) (w : world) : result unit * world :=
  thorough isdigit int_of_ascii_digits decimal_float (without_effects eval_fragment)
    unit quiet_init quiet_run o w.

(** Three components of weights 10, 5 and 1. *)
Definition three_components : list ComponentSelector.component :=
  [ComponentSelector.Component 0 10; ComponentSelector.Component 1 5;
   ComponentSelector.Component 2 1].

(** A toy walk generator: the generator state counts the attempts, walk
    [n] visits contig [n mod 3], and a walk through contig 0 is invalid. *)
Definition toy_walk (n : nat) : list nat * nat := ([n mod 3]%nat, S n).
Definition toy_valid (p : list nat) : bool := negb (bool_decide (p = [0%nat])).
Definition toy_enumerate (min_valid_search max_valid_search : nat) :=
  PathEnumerator.enumerate toy_walk toy_valid id min_valid_search max_valid_search 0%nat.

(** A toy chain: the state counts the generations; a sampler with
    burn-in 2 and a checkpoint at every second generation, interrupted
    after 7 generations. *)
Definition toy_fingerprint : nat := 7%nat.
Definition toy_fresh : Checkpointing.MCMCState := Checkpointing.State 0%nat 0%nat.
Definition toy_store : list (Checkpointing.Checkpoint (fingerprint := nat)) :=
  (Checkpointing.sample S toy_fingerprint 2 2 7 toy_fresh []).2.

End Samples.

(** ** Further inputs for the concrete runs *)

Module MoreSamples.

Import Cli.

(** [eval] in the scope of a run whose output directory is
    [Samples.out] and exists: as in [Samples], and on three strings that
    reach into that scope.  [exit()] of the site builtin raises
    [SystemExit]; [rmdir(output_dir)] removes the output directory with
    all it holds and is [None]; [(rmdir(output_dir), exit())] removes it
    and then raises [SystemExit]. *)
Definition rmdir_output_dir (w : world) : world :=
  World (rmtree_ignore Samples.out (fs w)) (environ w) (trace w).

Definition scoped_eval (s : string) : M pyval :=
  fun w =>
    if bool_decide (s = "exit()") then (Raise SystemExit, w)
    else if bool_decide (s = "rmdir(output_dir)") then (Ok VNone, rmdir_output_dir w)
    else if bool_decide (s = "(rmdir(output_dir), exit())")
         then (Raise SystemExit, rmdir_output_dir w)
    else (Samples.eval_fragment s, w).

(** The command with the sample runtime, [scoped_eval] and the quiet
    estimator. *)
Definition run_scoped (o : options) (w : world) : result unit * world :=
  thorough isdigit int_of_ascii_digits Samples.decimal_float scoped_eval
    unit Samples.quiet_init Samples.quiet_run o w.

(** An output directory of an earlier run that also holds a directory
    with a dotted name. *)
Definition cluttered_fs : fsmap :=
  <[Samples.out ++ ["old.results"] := Dir]> Samples.used_fs.

(** The same with a result file kept in that directory. *)
Definition archived_fs : fsmap :=
  <[Samples.out ++ ["old.results"; "summary.txt"] := File]> cluttered_fs.

(** [python -m traversome thorough -o "my out"]. *)
Definition sample_argv : list string := ["traversome"; "thorough"; "-o"; "my out"].

End MoreSamples.

(** * Properties *)

(** ** Path enumeration *)

Section EnumeratorFacts.

Import PathEnumerator.

Context {rng path : Type} `{EqDecision path}.
Variable random_walk : rng -> path * rng.
Variable valid : path -> bool.
Variable canonical : path -> path.

Abbreviation attempt := (PathEnumerator.attempt random_walk valid canonical).
Abbreviation search := (PathEnumerator.search random_walk valid canonical).
Abbreviation after := (PathEnumerator.after random_walk valid canonical).
Abbreviation enumerate := (PathEnumerator.enumerate random_walk valid canonical).
Abbreviation well_collected := (PathEnumerator.well_collected valid canonical).

Lemma attempt_counts st : attempts (attempt st) = S (attempts st).
Proof.
  unfold PathEnumerator.attempt. destruct (random_walk (gen st)) as [p g'].
  by destruct (valid p && negb (bool_decide (canonical p ∈ found st))).
Qed.

Lemma attempt_grows st :
  found (attempt st) = found st \/
  length (found (attempt st)) = S (length (found st)).
Proof.
  unfold PathEnumerator.attempt. destruct (random_walk (gen st)) as [p g'].
  destruct (valid p && negb (bool_decide (canonical p ∈ found st))); cbn.
  - right. rewrite length_app. cbn. lia.
  - by left.
Qed.

Lemma attempt_well_collected st :
  well_collected (found st) -> well_collected (found (attempt st)).
Proof.
  intros [Hnd Hval]. unfold PathEnumerator.attempt.
  destruct (random_walk (gen st)) as [p g'].
  destruct (valid p && negb (bool_decide (canonical p ∈ found st))) eqn:E; cbn; [| by split].
  apply andb_true_iff in E as [Hv Hnew].
  apply negb_true_iff, bool_decide_eq_false in Hnew.
  split.
  - apply NoDup_app. repeat split; [done | | apply NoDup_singleton].
    intros c Hc Hc'. apply list_elem_of_singleton in Hc'. by subst.
  - intros c Hc. apply elem_of_app in Hc as [Hc | Hc]; [by apply Hval |].
    apply list_elem_of_singleton in Hc. subst. by exists p.
Qed.

Lemma after_S n st : after (S n) st = attempt (after n st).
Proof. revert st. induction n as [| n IH]; intros st; [done |]. cbn. by rewrite <- IH. Qed.

Lemma after_counts n st : attempts (after n st) = (attempts st + n)%nat.
Proof.
  induction n as [| n IH]; [cbn; lia |].
  rewrite after_S, attempt_counts, IH. lia.
Qed.

Lemma after_well_collected n st :
  well_collected (found st) -> well_collected (found (after n st)).
Proof.
  intros H0. induction n as [| n IH]; [done |].
  rewrite after_S. by apply attempt_well_collected.
Qed.

Lemma after_step_length n st :
  (length (found (after n st)) <= length (found (after (S n) st))
   <= S (length (found (after n st))))%nat.
Proof. rewrite after_S. destruct (attempt_grows (after n st)) as [-> | ->]; lia. Qed.

Lemma after_mono n m st :
  (n <= m)%nat -> (length (found (after n st)) <= length (found (after m st)))%nat.
Proof.
  induction 1 as [| m _ IH]; [done |].
  pose proof (after_step_length m st). lia.
Qed.

(** The loop stops at the first attempt count at which the minimum is
    reached or the budget is spent. *)
Lemma search_halts min budget st :
  exists n, (n <= budget)%nat /\
    search min budget st = after n st /\
    ((min <= length (found (after n st)))%nat \/ n = budget) /\
    forall k, (k < n)%nat -> (length (found (after k st)) < min)%nat.
Proof.
  revert st. induction budget as [| b IH]; intros st; cbn.
  - exists 0%nat. cbn. destruct (min <=? length (found st))%nat;
      (split; [lia | split; [done | split; [by right | lia]]]).
  - destruct (min <=? length (found st))%nat eqn:E.
    + apply Nat.leb_le in E. exists 0%nat. cbn.
      split; [lia | split; [done | split; [by left | lia]]].
    + apply Nat.leb_gt in E. destruct (IH (attempt st)) as (n & Hn & Hs & Hstop & Hbefore).
      exists (S n). cbn. split; [lia | split; [done | split]].
      * destruct Hstop as [Hstop | ->]; [by left | by right].
      * intros [| k] Hk; cbn; [done | apply Hbefore; lia].
Qed.

(** C5: path enumeration stops at the first attempt count [n] at which
    [min_valid_search] distinct valid paths are collected or the budget of
    [max_valid_search] attempts is spent.  It returns the collected paths
    only when there are [min_valid_search] of them (distinct canonical
    forms of valid walks); otherwise the budget is spent and it fails
    with [InsufficientPathsError] carrying the counts. *)
Theorem enumerate_min_or_InsufficientPaths (min_valid_search max_valid_search : nat) (seed : rng) :
  let init := SearchState [] 0 seed in
  exists n,
    (n <= max_valid_search)%nat /\
    (forall k, (k < n)%nat -> (length (found (after k init)) < min_valid_search)%nat) /\
    (length (found (after n init)) = min_valid_search \/ n = max_valid_search) /\
    match enumerate min_valid_search max_valid_search seed with
    | inr ps =>
        ps = found (after n init) /\ length ps = min_valid_search /\ well_collected ps
    | inl (InsufficientPathsError n_found n_attempts) =>
        n = max_valid_search /\ n_attempts = max_valid_search /\
        n_found = length (found (after max_valid_search init)) /\
        (n_found < min_valid_search)%nat
    end.
Proof.
  intros init.
  destruct (search_halts min_valid_search max_valid_search init)
    as (n & Hn & Hs & Hstop & Hbefore).
  assert (Hexact : (min_valid_search <= length (found (after n init)))%nat ->
                   length (found (after n init)) = min_valid_search).
  { intros Hge. destruct n as [| n]; [cbn in *; lia |].
    pose proof (Hbefore n ltac:(lia)). pose proof (after_step_length n init). lia. }
  exists n. split; [done | split; [done |]].
  unfold PathEnumerator.enumerate. fold init. rewrite Hs.
  destruct (min_valid_search <=? length (found (after n init)))%nat eqn:E.
  - apply Nat.leb_le in E. split; [left; by apply Hexact |].
    split; [done | split; [by apply Hexact |]].
    apply after_well_collected. split; [constructor | intros c Hc; by apply elem_of_nil in Hc].
  - apply Nat.leb_gt in E. destruct Hstop as [Hstop | ->]; [lia |].
    split; [by right |]. rewrite after_counts. by cbn.
Qed.

End EnumeratorFacts.

(** Two valid walks exist for the toy generator: asking for two succeeds
    on the third attempt, asking for three spends the budget. *)
Example toy_enumerate_two : Samples.toy_enumerate 2 10 = inr [[1%nat]; [2%nat]].
Proof. by vm_compute. Qed.

Example toy_enumerate_three :
  Samples.toy_enumerate 3 10 = inl (PathEnumerator.InsufficientPathsError 2 10).
Proof. by vm_compute. Qed.

(** ** Component selection by weight ratio *)

Section SelectorFacts.

Import ComponentSelector.

#[local] Instance ranks_before_total : Total ranks_before.
Proof.
  intros a b. unfold ranks_before.
  destruct (Q_dec (weight a) (weight b)) as [[Hlt | Hgt] | Heq].
  - right. by left.
  - left. by left.
  - destruct (Nat.le_ge_cases (cid a) (cid b)).
    + left. right. by split.
    + right. right. split; [by symmetry | done].
Qed.

#[local] Instance ranks_before_trans : Transitive ranks_before.
Proof.
  intros a b c. unfold ranks_before.
  intros [H1 | [H1 H1']] [H2 | [H2 H2']].
  - left. lra.
  - left. lra.
  - left. lra.
  - right. split; [lra | lia].
Qed.

Lemma ranked_Permutation g : ranked g ≡ₚ g.
Proof. apply merge_sort_Permutation. Qed.

Lemma ranked_sorted g : StronglySorted ranks_before (ranked g).
Proof. apply StronglySorted_merge_sort; apply _. Qed.

Lemma ranked_length g : length (ranked g) = length g.
Proof. by rewrite ranked_Permutation. Qed.

Lemma sum_from_proper r r' cs : Qeq r r' -> Qeq (sum_from r cs) (sum_from r' cs).
Proof.
  revert r r'. induction cs as [| c cs IH]; intros r r' Hr; cbn; [done |].
  apply IH. by rewrite Hr.
Qed.

Lemma sum_from_Permutation r cs cs' : cs ≡ₚ cs' -> Qeq (sum_from r cs) (sum_from r cs').
Proof.
  intros Hp. revert r. induction Hp as [| c cs cs' _ IH | c d cs | cs1 cs2 cs3 _ IH1 _ IH2];
    intros r; cbn.
  - reflexivity.
  - apply IH.
  - apply sum_from_proper. ring.
  - by rewrite IH1.
Qed.

Lemma total_weight_ranked g : Qeq (total_weight (ranked g)) (total_weight g).
Proof. apply sum_from_Permutation, ranked_Permutation. Qed.

(** The loop returns the shortest non-empty prefix whose running sum
    reaches the cutoff, or the whole list when none does. *)
Lemma accumulate_spec cutoff total cs : forall running,
  (exists k, (0 < k <= length cs)%nat /\
     accumulate cutoff total running cs = take k cs /\
     Qle cutoff (Qdiv (sum_from running (take k cs)) total) /\
     forall j, (0 < j < k)%nat -> ~ Qle cutoff (Qdiv (sum_from running (take j cs)) total))
  \/ (accumulate cutoff total running cs = cs /\
      forall j, (0 < j <= length cs)%nat ->
        ~ Qle cutoff (Qdiv (sum_from running (take j cs)) total)).
Proof.
  induction cs as [| c cs IH]; intros running; cbn [accumulate].
  - right. split; [done |]. cbn. lia.
  - destruct (Qle_bool cutoff (Qdiv (Qplus running (weight c)) total)) eqn:E.
    + left. exists 1%nat. cbn [length]. split; [lia |]. split; [done |].
      split; [by apply Qle_bool_iff in E |]. lia.
    + assert (Hno : ~ Qle cutoff (Qdiv (Qplus running (weight c)) total)).
      { intros Hle. apply Qle_bool_iff in Hle. congruence. }
      destruct (IH (Qplus running (weight c))) as [(k & Hk & Hacc & Hle & Hmin) | [Hacc Hnone]].
      * left. exists (S k). cbn [length]. split; [lia |]. split; [cbn; by rewrite Hacc |].
        split; [done |]. intros [| [| j]] Hj; [lia | done |].
        apply (Hmin (S j)). lia.
      * right. split; [by rewrite Hacc |]. cbn [length].
        intros [| [| j]] Hj; [lia | done |]. apply (Hnone (S j)). lia.
Qed.

Lemma prefix_fraction_all g :
  ~ Qeq (total_weight g) 0 -> Qeq (prefix_fraction g (length (ranked g))) 1.
Proof.
  intros Hpos. unfold prefix_fraction. rewrite firstn_all, total_weight_ranked.
  unfold Qdiv. by apply Qmult_inv_r.
Qed.

Lemma prefix_fraction_0 g : Qeq (prefix_fraction g 0) 0.
Proof. unfold prefix_fraction, Qdiv. cbn. apply Qmult_0_l. Qed.

(** C6: for a cutoff [r] in (0,1] and a graph of non-zero total weight,
    ratio selection returns the first [k] components of the ranking
    (a permutation of the graph sorted by descending weight), where [k] is
    the least count whose share of the total weight reaches [r]: the
    crossing component is included and no shorter prefix reaches [r].
    For weights 10, 5, 1 and cutoff 0.7 the first two are selected. *)
Theorem ratio_selection_minimal_prefix :
  (forall (g : list component) (r : Q),
     Qlt 0 r -> Qle r 1 -> ~ Qeq (total_weight g) 0 ->
     ranked g ≡ₚ g /\ StronglySorted ranks_before (ranked g) /\
     exists k, (0 < k <= length g)%nat /\
       select_by_ratio r g = inr (take k (ranked g)) /\
       Qle r (prefix_fraction g k) /\
       forall j, (j < k)%nat -> Qlt (prefix_fraction g j) r)
  /\ select_by_ratio (7 # 10) Samples.three_components
     = inr (take 2 Samples.three_components).
Proof.
  split; [| by vm_compute].
  intros g r Hr0 Hr1 Hpos.
  split; [apply ranked_Permutation | split; [apply ranked_sorted |]].
  unfold select_by_ratio.
  destruct (Qlt_le_dec 0 r) as [_ | Hle]; [| by apply Qle_not_lt in Hle].
  apply Qle_bool_iff in Hr1 as Hb. rewrite Hb.
  destruct (accumulate_spec r (total_weight g) (ranked g) 0%Q)
    as [(k & Hk & Hacc & Hreach & Hmin) | [_ Hnone]].
  - exists k. rewrite ranked_length in Hk. split; [done |]. split; [by rewrite Hacc |].
    split; [done |]. intros [| j] Hj.
    + by rewrite prefix_fraction_0.
    + apply Qnot_le_lt. intros Hge. apply (Hmin (S j)); [lia | done].
  - exfalso. destruct (ranked g) as [| c cs] eqn:Hrk.
    + apply Hpos. rewrite <- total_weight_ranked, Hrk. reflexivity.
    + apply (Hnone (length (c :: cs))); [cbn; lia |].
      rewrite <- Hrk. change (Qle r (prefix_fraction g (length (ranked g)))).
      by rewrite prefix_fraction_all.
Qed.

(** The theorem at weights 10, 5, 1 and cutoff 0.7. *)
Lemma ratio_selection_minimal_prefix_witness :
  exists k, (0 < k <= 3)%nat /\
    select_by_ratio (7 # 10) Samples.three_components
    = inr (take k (ranked Samples.three_components)) /\
    Qle (7 # 10) (prefix_fraction Samples.three_components k) /\
    forall j, (j < k)%nat -> Qlt (prefix_fraction Samples.three_components j) (7 # 10).
Proof.
  apply (proj1 ratio_selection_minimal_prefix Samples.three_components (7 # 10)).
  - reflexivity.
  - discriminate.
  - discriminate.
Defined.

Lemma select_by_index_fails i g :
  select_by_index i g = inl InvalidSelectionSpec
  <-> (length g <= i)%nat.
Proof.
  unfold select_by_index.
  destruct (ranked g !! i) as [c |] eqn:E.
  - apply lookup_lt_Some in E. rewrite ranked_length in E. split; [done | lia].
  - apply lookup_ge_None in E. rewrite ranked_length in E. by split.
Qed.

Lemma select_by_ratio_fails r g :
  select_by_ratio r g = inl InvalidSelectionSpec
  <-> ~ (Qlt 0 r /\ Qle r 1).
Proof.
  unfold select_by_ratio.
  destruct (Qlt_le_dec 0 r) as [Hpos | Hneg].
  - destruct (Qle_bool r 1) eqn:E.
    + apply Qle_bool_iff in E. split; [done | intros H; by destruct H].
    + split; [| done]. intros _ [_ Hle]. apply Qle_bool_iff in Hle. congruence.
  - split; [| done]. intros _ [Hpos _]. by apply Qle_not_lt in Hneg.
Qed.

End SelectorFacts.

(** The help text of [--graph-selection] on the cutoff: 1 keeps every
    component, a value close to 0 only the heaviest. *)
Example ratio_one_keeps_all :
  ComponentSelector.select_by_ratio 1 Samples.three_components
  = inr Samples.three_components.
Proof. by vm_compute. Qed.

Example ratio_small_keeps_heaviest :
  ComponentSelector.select_by_ratio (1 # 100) Samples.three_components
  = inr (take 1 Samples.three_components).
Proof. by vm_compute. Qed.

Example index_one_is_second :
  ComponentSelector.select_by_index 1 Samples.three_components
  = inr [ComponentSelector.Component 1 5].
Proof. by vm_compute. Qed.

Example index_out_of_range :
  ComponentSelector.select_by_index 3 Samples.three_components
  = inl ComponentSelector.InvalidSelectionSpec.
Proof. by vm_compute. Qed.

Example ratio_out_of_range :
  ComponentSelector.select_by_ratio (3 # 2) Samples.three_components
  = inl ComponentSelector.InvalidSelectionSpec.
Proof. by vm_compute. Qed.

(** ** The filesystem calls *)

Section FsFacts.

Import Cli.

Lemma world_eta w : World (fs w) (environ w) (trace w) = w.
Proof. by destruct w. Qed.

Lemma logged_nil w : logged w [] = w.
Proof. unfold logged. by rewrite app_nil_r, world_eta. Qed.

Lemma logged_logged w evs evs' : logged (logged w evs) evs' = logged w (evs ++ evs').
Proof. unfold logged. cbn. by rewrite app_assoc. Qed.

Lemma bind_Ok {A B} (c : M A) (k : A -> M B) w a w' :
  c w = (Ok a, w') -> bind c k w = k a w'.
Proof. unfold bind. by intros ->. Qed.

Lemma bind_Raise {A B} (c : M A) (k : A -> M B) w e w' :
  c w = (Raise e, w') -> bind c k w = (Raise e, w').
Proof. unfold bind. by intros ->. Qed.



Lemma child_name_Some d q name : child_name d q = Some name <-> q = d ++ [name].
Proof.
  unfold child_name. split.
  - destruct (drop (length d) q) as [| n [| ? ?]] eqn:Hd; try done.
    destruct (decide (take (length d) q = d)) as [Ht | ?]; [| done].
    intros [= ->]. by rewrite <- (take_drop (length d) q), Ht, Hd.
  - intros ->. rewrite drop_app_length, take_app_length.
    by rewrite decide_True.
Qed.

Lemma glob_match_iff d q :
  glob_match d q = true <->
  exists name, q = joinpath d name /\ matches_star_dot_star name = true.
Proof.
  unfold glob_match, joinpath. split.
  - destruct (child_name d q) as [name |] eqn:Hc; [| done].
    apply child_name_Some in Hc. by exists name.
  - intros (name & -> & Hm).
    by rewrite (proj2 (child_name_Some d (d ++ [name]) name) eq_refl).
Qed.

Lemma elem_of_glob (d : path) (f : fsmap) (q : path) :
  q ∈ glob_star_dot_star d f <-> is_Some (f !! q) /\ glob_match d q = true.
Proof.
  unfold glob_star_dot_star. rewrite list_elem_of_filter, list_elem_of_fmap. split.
  - intros [Hm ([q' k] & -> & Hin)]. apply elem_of_map_to_list in Hin. by split; [exists k |].
  - intros [[k Hk] Hm]. split; [done |]. exists (q, k). split; [done |].
    by apply elem_of_map_to_list.
Qed.

Lemma NoDup_glob (d : path) (f : fsmap) : NoDup (glob_star_dot_star d f).
Proof. apply NoDup_filter, NoDup_fst_map_to_list. Qed.

Lemma lookup_rmtree_ignore (d : path) (f : fsmap) (q : path) :
  rmtree_ignore d f !! q =
  if decide (f !! d = Some Dir /\ d `prefix_of` q) then None else f !! q.
Proof.
  unfold rmtree_ignore, isdir. destruct (decide _) as [[Hd Hp] | Hn].
  - rewrite bool_decide_eq_true_2 by done.
    apply map_lookup_filter_None. right. intros k _ Hk. by apply Hk.
  - destruct (bool_decide (f !! d = Some Dir)) eqn:E; [| done].
    apply bool_decide_eq_true in E. rewrite map_lookup_filter.
    destruct (f !! q) as [k |]; cbn; [| done].
    rewrite option_guard_True; [done |]. cbn. intros Hp. by apply Hn.
Qed.

(** Removing a list of distinct plain files succeeds and leaves the
    rest as it was. *)
Lemma for_each_remove_files qs : forall w,
  NoDup qs -> (forall q, q ∈ qs -> fs w !! q = Some File) ->
  exists f', for_each qs (fun q => on_fs (remove q)) w
             = (Ok tt, World f' (environ w) (trace w)) /\
    forall q, f' !! q = if decide (q ∈ qs) then None else fs w !! q.
Proof.
  induction qs as [| q0 qs IH]; intros w Hnd Hfiles; cbn [for_each].
  - exists (fs w). split; [by destruct w | intros q].
    destruct (decide (q ∈ [])) as [Hin | _]; [by apply elem_of_nil in Hin | done].
  - apply NoDup_cons in Hnd as [Hnotin Hnd].
    unfold bind at 1, on_fs at 1, remove at 1. rewrite (Hfiles q0) by left. cbn.
    destruct (IH (World (delete q0 (fs w)) (environ w) (trace w)) Hnd) as (f' & Hrun & Hlook).
    { intros q Hq. cbn. rewrite lookup_delete_ne; [apply Hfiles; by right |].
      intros ->. by apply Hnotin. }
    exists f'. split; [done |]. intros q. rewrite Hlook. cbn.
    destruct (decide (q ∈ qs)) as [Hin | Hnin].
    + rewrite decide_True; [done | by right].
    + destruct (decide (q = q0)) as [-> | Hne].
      * rewrite decide_True; [apply lookup_delete_eq | by left].
      * rewrite decide_False; [by apply lookup_delete_ne |].
        intros [? | ?]%elem_of_cons; done.
Qed.

Lemma on_fs_Ok {A} (op : fsmap -> result A * fsmap) w a f' :
  op (fs w) = (Ok a, f') -> on_fs op w = (Ok a, World f' (environ w) (trace w)).
Proof. unfold on_fs. by intros ->. Qed.

Lemma open_append_ok (q : path) (f : fsmap) :
  f !! q <> Some Dir -> open_append q f = (Ok tt, <[q := File]> f).
Proof.
  unfold open_append. destruct (f !! q) as [[] |] eqn:E; [| done | done].
  intros _. by rewrite insert_id.
Qed.

(** The logging half of [initialize], run on a world whose log file is
    not a directory: the file is there afterwards and four events are
    logged. *)
Lemma initialize_logging out lvl w :
  fs w !! logfile_of out <> Some Dir ->
  bind (setup_simple_logger [SinkFile (logfile_of out)] lvl) (fun _ =>
    bind (logger_info RUNNING_HEAD) (fun _ =>
      bind (setup_simple_logger [SinkFile (logfile_of out); SinkStdout] lvl) (fun _ =>
        logger_info RUNNING_ENV_INFO))) w
  = (Ok tt, World (<[logfile_of out := File]> (fs w)) (environ w)
              (trace w ++ initialize_log out lvl)).
Proof.
  intros Hlog.
  unfold setup_simple_logger, logger_info, for_each, open_sink, bind, ret, emit, on_fs.
  rewrite (open_append_ok _ _ Hlog). cbn.
  rewrite open_append_ok by (by rewrite lookup_insert_eq).
  rewrite insert_insert_eq. cbn. unfold initialize_log. by rewrite <- !app_assoc.
Qed.

Lemma not_prefix_sibling (out : path) (a b : string) (q : path) :
  a <> b -> joinpath out a `prefix_of` joinpath out b -> False.
Proof.
  unfold joinpath. intros Hne Hp. apply prefix_app_inv in Hp.
  destruct Hp as [k Hk]. cbn in Hk. by injection Hk.
Qed.

(** Under the terminate policy an existing output location stops
    [initialize] at once. *)
Lemma initialize_terminate_exists out lvl w :
  is_Some (fs w !! out) ->
  initialize out lvl terminate w = (Raise (FileExistsError out), w).
Proof.
  intros [k Hk]. unfold initialize. apply bind_Raise.
  unfold on_fs, makedirs. rewrite Hk.
  assert (in_overwrite_resume terminate = false) as -> by by vm_compute.
  destruct w; by destruct k.
Qed.

(** Under the resume policy an existing output directory is kept as it
    is; only the log file is opened. *)
Lemma initialize_resume_keeps out lvl w :
  fs w !! out = Some Dir -> fs w !! logfile_of out <> Some Dir ->
  initialize out lvl resume w
  = (Ok tt, World (<[logfile_of out := File]> (fs w)) (environ w)
              (trace w ++ initialize_log out lvl)).
Proof.
  intros Hout Hlog. unfold initialize.
  assert (in_overwrite_resume resume = true) as -> by by vm_compute.
  rewrite (bind_Ok _ _ w tt w).
  2:{ unfold on_fs, makedirs. rewrite Hout. by destruct w. }
  rewrite (bind_Ok get_fs _ w (fs w) w eq_refl).
  assert (bool_decide (Previous_value resume = "overwrite") = false) as -> by by vm_compute.
  cbn [andb]. rewrite (bind_Ok (ret tt) _ w tt w eq_refl).
  by apply initialize_logging.
Qed.

(** Under the overwrite policy, on an existing output directory whose
    dotted entries are plain files (the [theano.cache] directory apart),
    [initialize] succeeds; afterwards the log file is there, everything
    [removed_by_overwrite] is gone and the rest is as it was. *)
Lemma initialize_overwrite_clears out lvl w :
  fs w !! out = Some Dir ->
  (forall name, matches_star_dot_star name = true ->
     fs w !! joinpath out name = Some Dir -> name = "theano.cache") ->
  exists f',
    initialize out lvl overwrite w
    = (Ok tt, World f' (environ w) (trace w ++ initialize_log out lvl)) /\
    f' !! logfile_of out = Some File /\
    (forall q, q <> logfile_of out -> removed_by_overwrite out (fs w) q -> f' !! q = None) /\
    (forall q, q <> logfile_of out -> ~ removed_by_overwrite out (fs w) q ->
       f' !! q = fs w !! q).
Proof.
  intros Hout Hdotted.
  set (f := fs w) in *.
  set (f1 := rmtree_ignore (joinpath out "paths") f).
  set (f2 := rmtree_ignore (joinpath out "theano.cache") f1).
  assert (Hcache : f1 !! joinpath out "theano.cache" = f !! joinpath out "theano.cache").
  { unfold f1. rewrite lookup_rmtree_ignore.
    destruct (decide _) as [[_ Hp] | _]; [| done].
    by destruct (not_prefix_sibling out "paths" "theano.cache" [] ltac:(done) Hp). }
  assert (Hf2 : forall q, f2 !! q =
            if decide ((f !! joinpath out "paths" = Some Dir /\
                         joinpath out "paths" `prefix_of` q) \/
                       (f !! joinpath out "theano.cache" = Some Dir /\
                         joinpath out "theano.cache" `prefix_of` q))
            then None else f !! q).
  { intros q. unfold f2. rewrite lookup_rmtree_ignore, Hcache. unfold f1.
    rewrite lookup_rmtree_ignore.
    repeat destruct (decide _); try done; tauto. }
  assert (Hfiles : forall q, q ∈ glob_star_dot_star out f2 -> f2 !! q = Some File).
  { intros q [[k Hk] Hm]%elem_of_glob. destruct k; [done |]. exfalso.
    apply glob_match_iff in Hm as (name & -> & Hm).
    rewrite Hf2 in Hk. destruct (decide _) as [? | Hkeep]; [done |].
    assert (name = "theano.cache") as -> by by apply Hdotted.
    apply Hkeep. right. by split. }
  destruct (for_each_remove_files (glob_star_dot_star out f2)
              (World f2 (environ w) (trace w)) (NoDup_glob _ _) Hfiles)
    as (f3 & Hrun & Hf3).
  cbn in Hf3.
  assert (Hlogmatch : glob_match out (logfile_of out) = true).
  { apply glob_match_iff. by exists "traversome.log.txt". }
  assert (Hf3log : f3 !! logfile_of out = None).
  { rewrite Hf3. destruct (decide _) as [? | Hnin]; [done |].
    destruct (f2 !! logfile_of out) eqn:E; [| done].
    exfalso. apply Hnin, elem_of_glob. by split; [eexists |]. }
  exists (<[logfile_of out := File]> f3). split; [| split; [| split]].
  - unfold initialize.
    assert (in_overwrite_resume overwrite = true) as -> by by vm_compute.
    rewrite (bind_Ok _ _ w tt w).
    2:{ unfold on_fs, makedirs. fold f. rewrite Hout. by destruct w. }
    rewrite (bind_Ok get_fs _ w (fs w) w eq_refl).
    assert (bool_decide (Previous_value overwrite = "overwrite") = true) as -> by by vm_compute.
    assert (isdir (fs w) out = true) as -> by by apply bool_decide_eq_true.
    cbn [andb].
    rewrite (bind_Ok _ _ w tt (World f3 (environ w) (trace w))).
    { apply (initialize_logging out lvl (World f3 (environ w) (trace w))).
      cbn. by rewrite Hf3log. }
    rewrite (bind_Ok _ _ w tt (World f1 (environ w) (trace w)) eq_refl).
    rewrite (bind_Ok _ _ (World f1 (environ w) (trace w)) tt
               (World f2 (environ w) (trace w)) eq_refl).
    rewrite (bind_Ok get_fs _ (World f2 (environ w) (trace w)) f2
               (World f2 (environ w) (trace w)) eq_refl).
    exact Hrun.
  - apply lookup_insert_eq.
  - intros q Hq Hrem. rewrite lookup_insert_ne by done. rewrite Hf3.
    destruct (decide _) as [? | Hnin]; [done |]. rewrite Hf2.
    destruct (decide _) as [? | Hkeep]; [done |].
    destruct Hrem as [? | [? | Hm]]; [tauto | tauto |].
    destruct (f !! q) eqn:E; [| done]. exfalso. apply Hnin, elem_of_glob.
    split; [| by apply glob_match_iff].
    rewrite Hf2. rewrite decide_False by done. by eexists.
  - intros q Hq Hkeep. rewrite lookup_insert_ne by done. rewrite Hf3.
    destruct (decide _) as [[_ Hm]%elem_of_glob | _].
    + exfalso. apply Hkeep. right. right. by apply glob_match_iff.
    + rewrite Hf2. rewrite decide_False; [done |]. intros [? | ?]; apply Hkeep.
      * by left.
      * right. by left.
Qed.

End FsFacts.

(** A first run on a fresh filesystem completes; the default selection
    [0] is the integer index 0 and [0,4] a slice. *)
Example run_quiet_fresh :
  fst (Samples.run_quiet Samples.default_options (Samples.world_of Samples.fresh_fs)) = Ok tt.
Proof. by vm_compute. Qed.

Example selection_default :
  fst (Samples.parse "0" (Samples.world_of Samples.fresh_fs)) = Ok (Cli.SelInt 0).
Proof. by vm_compute. Qed.

Example selection_slice :
  fst (Samples.parse "0,4" (Samples.world_of Samples.fresh_fs))
  = Ok (Cli.SelSlice (Slice (VInt 0) (VInt 4) VNone)).
Proof. by vm_compute. Qed.

Example selection_one_is_an_index :
  fst (Samples.parse "1" (Samples.world_of Samples.fresh_fs)) = Ok (Cli.SelInt 1).
Proof. by vm_compute. Qed.

(** ** Resuming from a checkpoint *)

Section CheckpointFacts.

Import Checkpointing.

Context {chain fingerprint : Type} `{EqDecision fingerprint}.
Variable generation_step : chain -> chain.

Abbreviation advance := (Checkpointing.advance generation_step).
Abbreviation sample := (@Checkpointing.sample chain fingerprint generation_step).
Abbreviation generations n s := (Nat.iter n advance s).

Lemma generations_counter n s : generation (generations n s) = (generation s + n)%nat.
Proof.
  induction n as [| n IH]; [cbn; lia |].
  change (generations (S n) s) with (advance (generations n s)).
  cbn [generation Checkpointing.advance]. rewrite IH. lia.
Qed.

Lemma sample_state fp n_burn interval todo : forall s store,
  (sample fp n_burn interval todo s store).1 = generations todo s.
Proof.
  induction todo as [| todo IH]; intros s store; [done |].
  cbn [Checkpointing.sample]. rewrite IH. symmetry. apply Nat.iter_succ_r.
Qed.

(** The last checkpoint of the store after [todo] generations: the one
    the store ended with when no generation on the way was due, the
    state at the last due generation otherwise. *)
Lemma sample_latest fp n_burn interval todo : forall s store,
  (last (sample fp n_burn interval todo s store).2 = last store /\
   forall k, (1 <= k <= todo)%nat -> due n_burn interval (generation s + k) = false)
  \/
  (exists k, (1 <= k <= todo)%nat /\
     due n_burn interval (generation s + k) = true /\
     (forall j, (k < j <= todo)%nat -> due n_burn interval (generation s + j) = false) /\
     last (sample fp n_burn interval todo s store).2 = Some (Saved (generations k s) fp)).
Proof.
  induction todo as [| todo IH]; intros s store.
  { left. split; [done | intros k Hk; lia]. }
  cbn [Checkpointing.sample].
  set (store' := if due n_burn interval (generation (advance s))
                 then store ++ [Saved (advance s) fp] else store).
  assert (Hgen : forall k, (generation (advance s) + k = generation s + S k)%nat)
    by (intros k; cbn; lia).
  destruct (IH (advance s) store') as [[Hlast Hnone] | (k & Hk & Hdue & Hafter & Hlast)].
  - destruct (due n_burn interval (generation (advance s))) eqn:Hd.
    + right. exists 1%nat. split; [lia |].
      split; [by rewrite <- (Hgen 0%nat), Nat.add_0_r |]. split.
      * intros j Hj. destruct j as [| j]; [lia |]. rewrite <- Hgen. apply Hnone. lia.
      * rewrite Hlast. unfold store'. by rewrite last_snoc.
    + left. split; [by rewrite Hlast |].
      intros k Hk. destruct k as [| k]; [lia |].
      destruct k as [| k]; [by rewrite <- (Hgen 0%nat), Nat.add_0_r |].
      rewrite <- Hgen. apply Hnone. lia.
  - right. exists (S k). split; [lia |]. split; [by rewrite <- Hgen |]. split.
    + intros j Hj. destruct j as [| j]; [lia |]. rewrite <- Hgen. apply Hafter. lia.
    + rewrite Hlast. do 2 f_equal. symmetry. apply Nat.iter_succ_r.
Qed.

(** Resuming after an interruption: the sampler starts from the latest
    checkpoint the interrupted run wrote, and ends in the state of an
    uninterrupted run. *)
Lemma resume_continues fp n_burn interval stopped n_generations fresh cp :
  generation fresh = 0%nat -> (stopped <= n_generations)%nat ->
  let store := (sample fp n_burn interval stopped fresh []).2 in
  last store = Some cp ->
  start true fp store fresh = inr (saved cp) /\
  (exists g, (1 <= g <= stopped)%nat /\ saved cp = generations g fresh /\
     due n_burn interval g = true /\
     forall j, (g < j <= stopped)%nat -> due n_burn interval j = false) /\
  exists store',
    run generation_step true fp n_burn interval n_generations store fresh
    = inr (generations n_generations fresh, store') /\
    (sample fp n_burn interval n_generations fresh []).1 = generations n_generations fresh.
Proof.
  intros Hzero Hle store Hlast.
  destruct (sample_latest fp n_burn interval stopped fresh [])
    as [[Hsame _] | (g & Hg & Hdue & Hafter & Hlatest)].
  { fold store in Hsame. by rewrite Hlast in Hsame. }
  fold store in Hlatest. rewrite Hlast in Hlatest. injection Hlatest as ->.
  rewrite Hzero in Hdue, Hafter. cbn in Hdue, Hafter.
  assert (Hstart : start true fp store fresh = inr (generations g fresh)).
  { unfold start. rewrite Hlast. cbn. by destruct (decide (fp = fp)). }
  split; [done |]. split; [by exists g |]. clearbody store.
  unfold run. rewrite Hstart.
  destruct (sample _ _ _ _ _ store) as [s' store'] eqn:E.
  eexists. split; [| apply sample_state].
  pose proof (sample_state fp n_burn interval
                (n_generations - generation (generations g fresh))
                (generations g fresh) store) as Hs.
  rewrite E in Hs. cbn in Hs. subst s'.
  rewrite generations_counter, Hzero. cbn.
  do 2 f_equal. rewrite <- Nat.iter_add. f_equal. lia.
Qed.

End CheckpointFacts.

(** ** The command *)

Section CommandFacts.

Import Cli.

Variable py_isdigit : string -> bool.
Variable py_int : string -> result Z.
Variable py_float : string -> result Q.
Variable py_eval : string -> M pyval.
Variable Traversome : Type.
Variable Traversome_init : Traversome_args -> fsmap -> result Traversome * fsmap.
Variable Traversome_run : Traversome -> VarGen -> bool -> fsmap -> result unit * fsmap.

Abbreviation parse_graph_selection :=
  (Cli.parse_graph_selection py_isdigit py_int py_float py_eval).
Abbreviation construct_and_run :=
  (Cli.construct_and_run py_isdigit py_int py_float py_eval
     Traversome Traversome_init Traversome_run).
Abbreviation thorough_body :=
  (Cli.thorough_body py_isdigit py_int py_float py_eval
     Traversome Traversome_init Traversome_run).
Abbreviation thorough :=
  (Cli.thorough py_isdigit py_int py_float py_eval
     Traversome Traversome_init Traversome_run).

(** *** The check of [-f] and [-a] *)

Lemma check_inputs_cases o w :
  check_inputs o w =
  match reads_file o, alignment_file o with
  | Some _, Some _ => (Raise SystemExit, logged w [StderrWrite msg_exclusive])
  | None, None => (Raise SystemExit, logged w [StderrWrite msg_missing])
  | Some p, None | None, Some p =>
      if exists_ (fs w) p then (Ok tt, w) else (Raise (FileNotFoundError p), w)
  end.
Proof.
  unfold check_inputs, bind, get_fs, emit, sys_exit, raise, ret, logged.
  destruct (reads_file o) as [p |], (alignment_file o) as [q |]; cbn; try done.
  - by destruct (exists_ (fs w) p).
  - by destruct (exists_ (fs w) q).
Qed.

Lemma thorough_stops_at_check o w e w' :
  check_inputs o w = (Raise e, w') -> thorough o w = (Raise e, w').
Proof. apply bind_Raise. Qed.

(** C2: exactly one of the reads file and the alignment file must be
    given.  With both or neither, [thorough] writes its message to stderr
    and exits, the filesystem untouched and nothing logged or analysed;
    with exactly one that does not exist it raises [FileNotFoundError] on
    that path, again before anything else; with exactly one that exists
    the check passes. *)
Theorem thorough_requires_exactly_one_input o w :
  match reads_file o, alignment_file o with
  | Some _, Some _ =>
      thorough o w = (Raise SystemExit, logged w [StderrWrite msg_exclusive])
  | None, None =>
      thorough o w = (Raise SystemExit, logged w [StderrWrite msg_missing])
  | Some p, None | None, Some p =>
      if exists_ (fs w) p then check_inputs o w = (Ok tt, w)
      else thorough o w = (Raise (FileNotFoundError p), w)
  end.
Proof.
  pose proof (check_inputs_cases o w) as Hc.
  destruct (reads_file o) as [p |], (alignment_file o) as [q |].
  - by apply thorough_stops_at_check.
  - destruct (exists_ (fs w) p); [done | by apply thorough_stops_at_check].
  - destruct (exists_ (fs w) q); [done | by apply thorough_stops_at_check].
  - by apply thorough_stops_at_check.
Qed.

(** *** What the command can raise *)

Lemma raises_only_bind {A B} (P : exn -> Prop) (c : M A) (k : A -> M B) :
  raises_only P c -> (forall a, raises_only P (k a)) -> raises_only P (bind c k).
Proof.
  intros Hc Hk w e w'. unfold bind. destruct (c w) as [[a | e0] w0] eqn:E.
  - apply Hk.
  - intros [= <- <-]. by eapply Hc.
Qed.

Lemma raises_only_ret {A} (P : exn -> Prop) (a : A) : raises_only P (ret a).
Proof. by intros w e w'. Qed.

Lemma raises_only_emit (P : exn -> Prop) ev : raises_only P (emit ev).
Proof. by intros w e w'. Qed.

Lemma raises_only_get_fs (P : exn -> Prop) : raises_only P get_fs.
Proof. by intros w e w'. Qed.

Lemma raises_only_on_fs {A} (P : exn -> Prop) (op : fsmap -> result A * fsmap) :
  (forall f e f', op f = (Raise e, f') -> P e) -> raises_only P (on_fs op).
Proof.
  intros Hop w e w'. unfold on_fs. destruct (op (fs w)) as [r f'] eqn:E.
  intros [= -> <-]. by eapply Hop.
Qed.

Lemma raises_only_for_each {A} (P : exn -> Prop) (xs : list A) (body : A -> M unit) :
  (forall x, raises_only P (body x)) -> raises_only P (for_each xs body).
Proof.
  intros Hb. induction xs as [| x xs IH]; cbn.
  - apply raises_only_ret.
  - apply raises_only_bind; [apply Hb | by intros _].
Qed.

Lemma makedirs_raises p ok f e f' : makedirs p ok f = (Raise e, f') -> is_fs_error e.
Proof.
  unfold makedirs. destruct (f !! p) as [[] |]; [| destruct ok |];
    try destruct (existsb _ _); by intros [= <- <-].
Qed.

Lemma remove_raises q f e f' : remove q f = (Raise e, f') -> is_fs_error e.
Proof. unfold remove. destruct (f !! q) as [[] |]; by intros [= <- <-]. Qed.

Lemma open_append_raises q f e f' : open_append q f = (Raise e, f') -> is_fs_error e.
Proof. unfold open_append. destruct (f !! q) as [[] |]; by intros [= <- <-]. Qed.

Lemma setup_simple_logger_raises sinks lvl :
  raises_only is_fs_error (setup_simple_logger sinks lvl).
Proof.
  apply raises_only_bind; [| intros _; apply raises_only_emit].
  apply raises_only_for_each. intros [q |]; cbn.
  - apply raises_only_on_fs, open_append_raises.
  - apply raises_only_ret.
Qed.

Lemma initialize_raises out lvl prev : raises_only is_fs_error (initialize out lvl prev).
Proof.
  unfold initialize.
  apply raises_only_bind; [apply raises_only_on_fs, makedirs_raises | intros _].
  apply raises_only_bind; [apply raises_only_get_fs | intros f].
  apply raises_only_bind.
  { destruct (_ && _); [| apply raises_only_ret].
    apply raises_only_bind; [by apply raises_only_on_fs | intros _].
    apply raises_only_bind; [by apply raises_only_on_fs | intros _].
    apply raises_only_bind; [apply raises_only_get_fs | intros f'].
    apply raises_only_for_each. intros q. apply raises_only_on_fs, remove_raises. }
  intros _.
  apply raises_only_bind; [apply setup_simple_logger_raises | intros _].
  apply raises_only_bind; [apply raises_only_emit | intros _].
  apply raises_only_bind; [apply setup_simple_logger_raises | intros _].
  apply raises_only_emit.
Qed.

(** The [try] statement lets nothing through. *)
Lemma try_except_returns body w : exists w', try_except body w = (Ok tt, w').
Proof.
  unfold try_except. destruct (body w) as [[[] | e] w0]; [by eexists |].
  destruct e; by eexists.
Qed.

Lemma try_except_raises (P : exn -> Prop) body : raises_only P (try_except body).
Proof. intros w e w' H. destruct (try_except_returns body w) as [w0 H0]. congruence. Qed.

Lemma thorough_raises o w e w' :
  thorough o w = (Raise e, w') ->
  (e = SystemExit /\ both_or_neither o) \/ is_fs_error e.
Proof.
  unfold Cli.thorough, bind at 1. rewrite check_inputs_cases. unfold both_or_neither.
  assert (Hrest : raises_only is_fs_error
            (bind (initialize (output_dir o) (log_level o) (prev_run o))
               (fun _ => bind (try_except (thorough_body o))
                           (fun _ => logger_info TotalCost)))).
  { apply raises_only_bind; [apply initialize_raises | intros _].
    apply raises_only_bind; [apply try_except_raises | intros _].
    apply raises_only_emit. }
  destruct (reads_file o) as [p |], (alignment_file o) as [q |].
  - intros [= <- <-]. left. split; [done | left; split; by eexists].
  - destruct (exists_ (fs w) p).
    + intros H. right. by eapply Hrest.
    + by intros [= <- <-]; right.
  - destruct (exists_ (fs w) q).
    + intros H. right. by eapply Hrest.
    + by intros [= <- <-]; right.
  - intros [= <- <-]. left. split; [done | by right].
Qed.


(** *** The run phase *)

Lemma try_except_Raise body w e w' :
  body w = (Raise e, w') ->
  try_except body w
  = (Ok tt, logged w' (if decide (e = SystemExit) then [] else [LoggerException e])).
Proof.
  unfold try_except. intros ->.
  destruct (decide (e = SystemExit)) as [-> | Hne]; [by rewrite logged_nil |].
  by destruct e.
Qed.

Lemma try_except_Ok body w w' :
  body w = (Ok tt, w') -> try_except body w = (Ok tt, w').
Proof. unfold try_except. by intros ->. Qed.

Lemma thorough_run_phase o w w1 w2 :
  check_inputs o w = (Ok tt, w) ->
  initialize (output_dir o) (log_level o) (prev_run o) w = (Ok tt, w1) ->
  try_except (thorough_body o) w1 = (Ok tt, w2) ->
  thorough o w = (Ok tt, logged w2 [LoggerInfo TotalCost]).
Proof.
  intros Hc Hi Ht. unfold Cli.thorough.
  rewrite (bind_Ok _ _ _ _ _ Hc), (bind_Ok _ _ _ _ _ Hi), (bind_Ok _ _ _ _ _ Ht). done.
Qed.

Lemma thorough_body_cases o w :
  thorough_body o w =
  if decide (var_gen_scheme o = Provided)
  then (Raise (AssertionError msg_user_provided), with_cache_flags o w)
  else if (max_valid_search o <? min_valid_search o)%Z
       then (Raise (AssertionError ""), with_cache_flags o w)
       else construct_and_run o (with_cache_flags o w).
Proof.
  unfold Cli.thorough_body, bind, setenv, assert_, with_cache_flags. cbn.
  destruct (var_gen_scheme o); cbn; [| done].
  rewrite Z.ltb_antisym. by destruct (min_valid_search o <=? max_valid_search o)%Z.
Qed.

Lemma construct_and_run_raises o w w2 sel e f' calls :
  parse_graph_selection (graph_component_selection o) w = (Ok sel, w2) ->
  estimator_raises Traversome Traversome_init Traversome_run o sel (fs w2) e f' calls ->
  construct_and_run o w = (Raise e, World f' (environ w2) (trace w2 ++ calls)).
Proof.
  intros Hp Hr. unfold Cli.construct_and_run, bind, on_fs, emit. rewrite Hp. cbn.
  destruct Hr as [[Hi ->] | (t & f1 & Hi & Hr & ->)]; rewrite Hi; cbn; [done |].
  rewrite Hr. by rewrite <- app_assoc.
Qed.

Lemma construct_and_run_bad_selection o w w2 e :
  parse_graph_selection (graph_component_selection o) w = (Raise e, w2) ->
  construct_and_run o w = (Raise e, w2).
Proof. intros Hp. unfold Cli.construct_and_run, bind. by rewrite Hp. Qed.


(** *** What the command emits *)

Lemma emits_only_bind {A B} (P : event -> Prop) (c : M A) (k : A -> M B) :
  emits_only P c -> (forall a, emits_only P (k a)) -> emits_only P (bind c k).
Proof.
  intros Hc Hk w r w'. unfold bind. destruct (c w) as [[a | e0] w0] eqn:E.
  - intros Hka. destruct (Hc _ _ _ E) as (evs & Ht & Hf).
    destruct (Hk _ _ _ _ Hka) as (evs' & Ht' & Hf').
    exists (evs ++ evs'). rewrite Ht', Ht, app_assoc. split; [done | by apply Forall_app].
  - intros [= <- <-]. by eapply Hc.
Qed.

Lemma emits_only_silent {A} (P : event -> Prop) (c : M A) :
  (forall w r w', c w = (r, w') -> trace w' = trace w) -> emits_only P c.
Proof.
  intros Hc w r w' E. exists []. rewrite app_nil_r. split; [by eapply Hc | constructor].
Qed.

Lemma emits_only_emit (P : event -> Prop) ev : P ev -> emits_only P (emit ev).
Proof. intros HP w r w' [= <- <-]. exists [ev]. split; [done | by repeat constructor]. Qed.

Lemma emits_only_on_fs {A} (P : event -> Prop) (op : fsmap -> result A * fsmap) :
  emits_only P (on_fs op).
Proof.
  apply emits_only_silent. intros w r w'. unfold on_fs.
  destruct (op (fs w)). by intros [= <- <-].
Qed.

Lemma emits_only_for_each {A} (P : event -> Prop) (xs : list A) (body : A -> M unit) :
  (forall x, emits_only P (body x)) -> emits_only P (for_each xs body).
Proof.
  intros Hb. induction xs as [| x xs IH]; cbn.
  - apply emits_only_silent. by intros w r w' [= <- <-].
  - apply emits_only_bind; [apply Hb | by intros _].
Qed.

Lemma emits_only_setup_simple_logger (P : event -> Prop) sinks lvl :
  P (LoggerConfigure sinks lvl) -> emits_only P (setup_simple_logger sinks lvl).
Proof.
  intros HP. apply emits_only_bind; [| intros _; by apply emits_only_emit].
  apply emits_only_for_each. intros [q |]; cbn.
  - apply emits_only_on_fs.
  - apply emits_only_silent. by intros w r w' [= <- <-].
Qed.

Lemma emits_only_initialize out lvl prev :
  emits_only (fun ev => ~ is_estimator_call ev) (initialize out lvl prev).
Proof.
  unfold initialize.
  apply emits_only_bind; [apply emits_only_on_fs | intros _].
  apply emits_only_bind; [apply emits_only_silent; by intros w r w' [= <- <-] | intros f].
  apply emits_only_bind.
  { destruct (_ && _); [| apply emits_only_silent; by intros w r w' [= <- <-]].
    apply emits_only_bind; [apply emits_only_on_fs | intros _].
    apply emits_only_bind; [apply emits_only_on_fs | intros _].
    apply emits_only_bind; [apply emits_only_silent; by intros w r w' [= <- <-] | intros f'].
    apply emits_only_for_each. intros q. apply emits_only_on_fs. }
  intros _.
  apply emits_only_bind; [apply emits_only_setup_simple_logger; cbn; tauto | intros _].
  apply emits_only_bind; [apply emits_only_emit; cbn; tauto | intros _].
  apply emits_only_bind; [apply emits_only_setup_simple_logger; cbn; tauto | intros _].
  apply emits_only_emit; cbn; tauto.
Qed.

Lemma emits_only_check_inputs o :
  emits_only (fun ev => ~ is_estimator_call ev) (check_inputs o).
Proof.
  intros w r w'. rewrite check_inputs_cases.
  destruct (reads_file o) as [p |], (alignment_file o) as [q |].
  - intros [= <- <-]. eexists. split; [done | repeat constructor; cbn; tauto].
  - destruct (exists_ (fs w) p); intros [= <- <-]; exists []; by rewrite app_nil_r.
  - destruct (exists_ (fs w) q); intros [= <- <-]; exists []; by rewrite app_nil_r.
  - intros [= <- <-]. eexists. split; [done | repeat constructor; cbn; tauto].
Qed.

Lemma emits_only_try_except (P : event -> Prop) body :
  emits_only P body -> (forall e, P (LoggerException e)) -> emits_only P (try_except body).
Proof.
  intros Hb HP w r w'. unfold try_except.
  destruct (body w) as [[[] | e] w0] eqn:E; destruct (Hb _ _ _ E) as (evs & Ht & Hf).
  - intros [= <- <-]. by exists evs.
  - destruct (decide (e = SystemExit)) as [-> | Hne].
    + intros [= <- <-]. by exists evs.
    + assert (logger_exception e w0 = (r, w') -> exists evs0,
                trace w' = trace w ++ evs0 /\ Forall P evs0) as Hlog.
      { intros [= <- <-]. exists (evs ++ [LoggerException e]). cbn.
        rewrite Ht, app_assoc. split; [done |].
        apply Forall_app. split; [done | by repeat constructor]. }
      by destruct e.
Qed.

(** With the maximum below the minimum the body of the [try] stops at
    one of its two assertions. *)
Lemma thorough_body_bounds_violated o w :
  (max_valid_search o < min_valid_search o)%Z ->
  exists msg, thorough_body o w = (Raise (AssertionError msg), with_cache_flags o w).
Proof.
  intros Hlt. rewrite thorough_body_cases.
  destruct (decide (var_gen_scheme o = Provided)); [by eexists |].
  assert ((max_valid_search o <? min_valid_search o)%Z = true) as -> by lia. by eexists.
Qed.

(** C10: with [max_valid_search] below [min_valid_search] no run of
    [thorough] enters the estimator, and a run that gets past the input
    check and [initialize] raises an [AssertionError] in the body of the
    [try], which the command logs.  With [max_valid_search] at least
    [min_valid_search] the assertion on the bounds does not fire: the body
    stops at the assertion on the generating scheme or goes on to parse
    the selection and construct the estimator. *)
Theorem thorough_asserts_search_bounds o w :
  ((max_valid_search o < min_valid_search o)%Z ->
     (exists evs, trace (snd (thorough o w)) = trace w ++ evs /\
        Forall (fun ev => ~ is_estimator_call ev) evs) /\
     forall w1,
       check_inputs o w = (Ok tt, w) ->
       initialize (output_dir o) (log_level o) (prev_run o) w = (Ok tt, w1) ->
       exists msg,
         thorough_body o w1 = (Raise (AssertionError msg), with_cache_flags o w1) /\
         thorough o w
         = (Ok tt, logged (with_cache_flags o w1)
                     [LoggerException (AssertionError msg); LoggerInfo TotalCost]))
  /\
  ((min_valid_search o <= max_valid_search o)%Z ->
     forall w1,
       thorough_body o w1 =
       if decide (var_gen_scheme o = Provided)
       then (Raise (AssertionError msg_user_provided), with_cache_flags o w1)
       else construct_and_run o (with_cache_flags o w1)).
Proof.
  split.
  - intros Hlt. split.
    + assert (emits_only (fun ev => ~ is_estimator_call ev) (thorough o)) as Hem.
      { apply emits_only_bind; [apply emits_only_check_inputs | intros _].
        apply emits_only_bind; [apply emits_only_initialize | intros _].
        apply emits_only_bind; [| intros _; apply emits_only_emit; cbn; tauto].
        apply emits_only_try_except; [| intros e; cbn; tauto].
        apply emits_only_silent. intros w0 r w' E.
        destruct (thorough_body_bounds_violated o w0 Hlt) as [msg Hb].
        rewrite Hb in E. by injection E as <- <-. }
      destruct (thorough o w) as [r w'] eqn:E. by apply (Hem _ _ _ E).
    + intros w1 Hc Hi. destruct (thorough_body_bounds_violated o w1 Hlt) as [msg Hb].
      exists msg. split; [done |].
      rewrite (thorough_run_phase o w w1 _ Hc Hi (try_except_Raise _ _ _ _ Hb)).
      by rewrite logged_logged.
  - intros Hle w1. rewrite thorough_body_cases.
    destruct (decide (var_gen_scheme o = Provided)); [done |].
    by assert ((max_valid_search o <? min_valid_search o)%Z = false) as -> by lia.
Qed.

(** *** The selection string *)

Lemma parse_digits s w :
  py_isdigit s = true ->
  parse_graph_selection s w = (rbind (py_int s) (fun i => Ok (SelInt i)), w).
Proof. unfold Cli.parse_graph_selection. by intros ->. Qed.

Lemma parse_dotted s w :
  py_isdigit s = false -> contains_char "." s = true ->
  parse_graph_selection s w = (rbind (py_float s) (fun r => Ok (SelFloat r)), w).
Proof. unfold Cli.parse_graph_selection. by intros -> ->. Qed.

Lemma parse_other s w :
  py_isdigit s = false -> contains_char "." s = false ->
  parse_graph_selection s w =
  (match rbind (py_eval s w).1 slice_star with
   | Ok sl => Ok (SelSlice sl)
   | Raise SyntaxError | Raise (TypeError _) => Raise (TypeError (msg_invalid_selection s))
   | Raise e => Raise e
   end, (py_eval s w).2).
Proof. unfold Cli.parse_graph_selection. intros -> ->. by destruct (py_eval s w). Qed.

(** Exceptions of the evaluation other than [SyntaxError] and
    [TypeError] pass through the [except] clause unchanged. *)
Lemma parse_other_passes_through s w e w2 :
  py_isdigit s = false -> contains_char "." s = false ->
  py_eval s w = (Raise e, w2) -> e <> SyntaxError -> (forall m, e <> TypeError m) ->
  parse_graph_selection s w = (Raise e, w2).
Proof.
  intros Hd Hdot He Hs Ht. rewrite (parse_other s w Hd Hdot), He. cbn.
  destruct e; try done. by destruct (Ht msg).
Qed.

(** A selection that cannot be evaluated as slice arguments: the
    evaluation, or [slice] on its value, raises [SyntaxError] or
    [TypeError]. *)
Lemma parse_other_malformed s w res w2 :
  py_isdigit s = false -> contains_char "." s = false ->
  py_eval s w = (res, w2) ->
  (rbind res slice_star = Raise SyntaxError \/
   exists m, rbind res slice_star = Raise (TypeError m)) ->
  parse_graph_selection s w = (Raise (TypeError (msg_invalid_selection s)), w2).
Proof.
  intros Hd Hdot He Hbad. rewrite (parse_other s w Hd Hdot), He. cbn.
  by destruct Hbad as [-> | [m ->]].
Qed.


(** *** The previous-run policy *)

Lemma thorough_after_initialize o w w1 :
  check_inputs o w = (Ok tt, w) ->
  initialize (output_dir o) (log_level o) (prev_run o) w = (Ok tt, w1) ->
  thorough o w
  = bind (try_except (thorough_body o)) (fun _ => logger_info TotalCost) w1.
Proof.
  intros Hc Hi. unfold Cli.thorough.
  by rewrite (bind_Ok _ _ _ _ _ Hc), (bind_Ok _ _ _ _ _ Hi).
Qed.

Lemma resume_flag o sel :
  a_resume (traversome_args o sel) = bool_decide (prev_run o = resume).
Proof. unfold traversome_args. cbn. by destruct (prev_run o). Qed.


End CommandFacts.

(** A run with both [-f] and [-a]: the command exits after its message
    on stderr. *)
Example thorough_exits_with_both_inputs :
  Samples.run_quiet
    (Samples.with_files Samples.default_options (Some Samples.reads_fq) (Some Samples.align_gaf))
    (Samples.world_of Samples.fresh_fs)
  = (Raise SystemExit,
     Cli.logged (Samples.world_of Samples.fresh_fs) [Cli.StderrWrite Cli.msg_exclusive]).
Proof. vm_compute. reflexivity. Qed.


(** The theorem on the bounds at [-n 10 -N 5]. *)
Lemma thorough_asserts_search_bounds_witness :
  let o := Samples.with_search Samples.default_options 10 5 in
  let w := Samples.world_of Samples.fresh_fs in
  let w1 := snd (Cli.initialize (Cli.output_dir o) (Cli.log_level o) (Cli.prev_run o) w) in
  exists msg,
    Cli.thorough_body isdigit int_of_ascii_digits Samples.decimal_float
      (Samples.without_effects Samples.eval_fragment) unit
      Samples.quiet_init Samples.quiet_run o w1
    = (Raise (AssertionError msg), Cli.with_cache_flags o w1) /\
    Samples.run_quiet o w
    = (Ok tt, Cli.logged (Cli.with_cache_flags o w1)
                [Cli.LoggerException (AssertionError msg); Cli.LoggerInfo Cli.TotalCost]).
Proof.
  intros o w w1.
  apply (proj1 (thorough_asserts_search_bounds isdigit int_of_ascii_digits
                  Samples.decimal_float (Samples.without_effects Samples.eval_fragment)
                  unit Samples.quiet_init Samples.quiet_run o w)).
  - reflexivity.
  - vm_compute. reflexivity.
  - vm_compute. reflexivity.
Defined.



(** C9 at its failing input: the bare word [abc] is neither digits nor
    dotted, its evaluation raises [NameError], and that is what
    [thorough] logs, not a [TypeError] naming the value. *)
Lemma graph_selection_word_raises_NameError :
  let o := Samples.with_selection Samples.default_options "abc" in
  let w := Samples.world_of Samples.fresh_fs in
  let w1 := snd (Cli.initialize (Cli.output_dir o) (Cli.log_level o) (Cli.prev_run o) w) in
  Samples.parse "abc" (Cli.with_cache_flags o w1)
  = (Raise (NameError "abc"), Cli.with_cache_flags o w1) /\
  Samples.run_quiet o w
  = (Ok tt, Cli.logged (Cli.with_cache_flags o w1)
              [Cli.LoggerException (NameError "abc"); Cli.LoggerInfo Cli.TotalCost]).
Proof. cbv zeta. split; by vm_compute. Qed.



(** ** More on [initialize] *)

Section InitializeFacts.

Import Cli Stages.

Lemma bind_inv {A B} (c : M A) (k : A -> M B) w r w' :
  bind c k w = (r, w') ->
  (exists e, c w = (Raise e, w') /\ r = Raise e) \/
  (exists a w0, c w = (Ok a, w0) /\ k a w0 = (r, w')).
Proof.
  unfold bind. destruct (c w) as [[a | e] w0].
  - intros H. right. by exists a, w0.
  - intros [= <- <-]. left. by exists e.
Qed.

Lemma bind_ext {A B} (c : M A) (k1 k2 : A -> M B) w :
  (forall a w0, k1 a w0 = k2 a w0) -> bind c k1 w = bind c k2 w.
Proof. intros Hk. unfold bind. by destruct (c w) as [[a | e] w0]. Qed.

Lemma bind_assoc {A B C} (c : M A) (k : A -> M B) (h : B -> M C) w :
  bind (bind c k) h w = bind c (fun a => bind (k a) h) w.
Proof. unfold bind. by destruct (c w) as [[a | e] w0]. Qed.

(** [initialize] is its three stages in sequence. *)
Lemma initialize_stages out lvl prev w :
  initialize out lvl prev w
  = bind (on_fs (makedirs out (in_overwrite_resume prev)))
      (fun _ => bind (clearing out prev) (fun _ => logging out lvl)) w.
Proof.
  unfold initialize, clearing, logging. apply bind_ext. intros _ w0.
  symmetry. apply (bind_assoc get_fs).
Qed.

Lemma prefixes_spec (p q : path) : q ∈ prefixes p <-> q `prefix_of` p.
Proof.
  revert q. induction p as [| c p IH]; intros q; cbn [prefixes].
  - rewrite list_elem_of_singleton. split; [intros ->; done | apply prefix_nil_inv].
  - rewrite elem_of_cons, list_elem_of_fmap. split.
    + intros [-> | (q' & -> & Hq')]; [apply prefix_nil |].
      apply prefix_cons, IH, Hq'.
    + destruct q as [| d q]; [by left |]. intros Hp. right.
      pose proof (prefix_cons_inv_1 _ _ _ _ Hp) as ->.
      exists q. split; [done |]. apply IH. by apply prefix_cons_inv_2 in Hp.
Qed.

Lemma lookup_insert_all (l : list path) (f : fsmap) (q : path) :
  foldr (fun d acc => <[d := Dir]> acc) f l !! q
  = if decide (q ∈ l) then Some Dir else f !! q.
Proof.
  induction l as [| d l IH]; cbn [foldr].
  - rewrite decide_False; [done | apply not_elem_of_nil].
  - destruct (decide (d = q)) as [-> | Hne].
    + rewrite lookup_insert_eq, decide_True; [done | by left].
    + rewrite lookup_insert_ne by done. rewrite IH.
      destruct (decide (q ∈ l)) as [Hin | Hnin].
      * rewrite decide_True; [done | by right].
      * rewrite decide_False; [done |]. intros [? | ?]%elem_of_cons; done.
Qed.

Lemma lookup_mkdir_all (p : path) (f : fsmap) (q : path) :
  mkdir_all p f !! q = if decide (q `prefix_of` p) then Some Dir else f !! q.
Proof.
  unfold mkdir_all. rewrite lookup_insert_all.
  destruct (decide (q ∈ prefixes p)) as [Hin | Hnin].
  - rewrite decide_True; [done | by apply prefixes_spec].
  - rewrite decide_False; [done |]. intros Hp. by apply Hnin, prefixes_spec.
Qed.

(** A successful [os.makedirs] leaves a directory at [p]; it changes
    nothing but missing ancestors, which become directories. *)
Lemma makedirs_Ok (p : path) (ok : bool) (f f' : fsmap) :
  makedirs p ok f = (Ok tt, f') ->
  f' !! p = Some Dir /\
  forall q, f' !! q = f !! q \/
            (q `prefix_of` p /\ f !! q = None /\ f' !! q = Some Dir).
Proof.
  unfold makedirs. destruct (f !! p) as [[] |] eqn:Hp; [done | |].
  - destruct ok; [| done]. intros [= <-]. split; [done | by left].
  - destruct (existsb _ _) eqn:E; [done |]. intros [= <-]. split.
    + by rewrite lookup_mkdir_all, decide_True.
    + intros q. rewrite lookup_mkdir_all.
      destruct (decide (q `prefix_of` p)) as [Hq | ?]; [| by left].
      destruct (f !! q) as [[] |] eqn:Hfq.
      * exfalso. assert (existsb (fun d => bool_decide (f !! d = Some File)) (prefixes p) = true)
          as Hex; [| congruence].
        apply existsb_exists. exists q. split.
        { apply list_elem_of_In. by apply prefixes_spec. }
        by apply bool_decide_eq_true.
      * by left.
      * right. done.
Qed.

Lemma makedirs_Raise (p : path) (ok : bool) (f f' : fsmap) (e : exn) :
  makedirs p ok f = (Raise e, f') -> f' = f.
Proof.
  unfold makedirs. destruct (f !! p) as [[] |]; [| destruct ok |];
    try destruct (existsb _ _); by intros [= <-].
Qed.

Lemma not_inside_self (out : path) : ~ strictly_inside out out.
Proof.
  intros [name Hp]. apply prefix_length in Hp.
  unfold joinpath in Hp. rewrite length_app in Hp. cbn in Hp. lia.
Qed.

Lemma inside_below (out q : path) : strictly_inside out q -> out `prefix_of` q.
Proof.
  intros [name Hp]. trans (joinpath out name); [| done]. by apply prefix_app_r.
Qed.

(** Removing entries one by one touches no other entry, the
    environment or the log, whether it ends well or not. *)
Lemma for_each_remove_effect qs : forall w r w',
  for_each qs (fun q => on_fs (remove q)) w = (r, w') ->
  environ w' = environ w /\ trace w' = trace w /\
  forall q, q ∉ qs -> fs w' !! q = fs w !! q.
Proof.
  induction qs as [| q0 qs IH]; intros w r w'; cbn [for_each].
  - by intros [= <- <-].
  - intros [(e & Hr & _) | ([] & w0 & Hr & Hrest)]%bind_inv.
    + unfold on_fs, remove in Hr.
      destruct (fs w !! q0) as [[] |]; [done | |]; by injection Hr as <- <-.
    + apply IH in Hrest as (He & Ht & Hf).
      unfold on_fs, remove in Hr. destruct (fs w !! q0) as [[] |] eqn:E; [| done | done].
      injection Hr as <-. cbn in *. split; [done |]. split; [done |].
      intros q Hq. apply not_elem_of_cons in Hq as [Hne Hq].
      rewrite Hf by done. by rewrite lookup_delete_ne.
Qed.

(** The clearing stage changes nothing outside the entries of the
    output directory, and neither the environment nor the log. *)
Lemma clearing_effect out prev w r w' :
  clearing out prev w = (r, w') ->
  environ w' = environ w /\ trace w' = trace w /\
  forall q, ~ strictly_inside out q -> fs w' !! q = fs w !! q.
Proof.
  unfold clearing, bind at 1, get_fs.
  destruct (_ && _); [| by intros [= <- <-]].
  unfold bind at 1 2 3, on_fs at 1 2, get_fs. cbn [fst snd fs environ trace].
  intros (He & Ht & Hf)%for_each_remove_effect. cbn in *.
  split; [done |]. split; [done |]. intros q Hq.
  destruct (decide (q ∈ glob_star_dot_star out
              (rmtree_ignore (joinpath out "theano.cache")
                 (rmtree_ignore (joinpath out "paths") (fs w))))) as [Hin | Hnin].
  - exfalso. apply elem_of_glob in Hin as [_ Hm].
    apply glob_match_iff in Hm as (name & -> & _). apply Hq. by exists name.
  - rewrite (Hf q Hnin), !lookup_rmtree_ignore.
    repeat destruct (decide _) as [[_ Hp] | _]; try done;
      exfalso; apply Hq; by eexists.
Qed.

(** The logging stage: it fails at once when the log file is a
    directory, and otherwise creates the file and logs four events. *)
Lemma logging_cases out lvl w :
  logging out lvl w =
  match fs w !! logfile_of out with
  | Some Dir => (Raise (IsADirectoryError (logfile_of out)), w)
  | _ => (Ok tt, World (<[logfile_of out := File]> (fs w)) (environ w)
                   (trace w ++ initialize_log out lvl))
  end.
Proof.
  destruct (fs w !! logfile_of out) as [[] |] eqn:E.
  - apply initialize_logging. by rewrite E.
  - unfold logging, setup_simple_logger, for_each, open_sink.
    unfold bind at 1 2 3, on_fs, open_append. fold (logfile_of out). rewrite E.
    by destruct w.
  - apply initialize_logging. by rewrite E.
Qed.

(** What a successful [initialize] leaves behind. *)
Lemma initialize_Ok_inv out lvl prev w w1 :
  initialize out lvl prev w = (Ok tt, w1) ->
  fs w1 !! out = Some Dir /\ fs w1 !! logfile_of out = Some File /\
  environ w1 = environ w /\ trace w1 = trace w ++ initialize_log out lvl.
Proof.
  rewrite initialize_stages.
  intros [(e & _ & [=]) | ([] & wa & Hmk & Hrest)]%bind_inv.
  apply bind_inv in Hrest as [(e & _ & [=]) | ([] & wb & Hcl & Hlog)].
  unfold on_fs in Hmk. destruct (makedirs _ _ _) as [r f1] eqn:Hm.
  injection Hmk as -> <-. apply makedirs_Ok in Hm as [Hout _].
  apply clearing_effect in Hcl as (He & Ht & Hf). cbn in He, Ht, Hf.
  rewrite logging_cases in Hlog.
  assert (Hne : out <> logfile_of out).
  { intros Heq. apply (f_equal length) in Heq.
    unfold logfile_of, joinpath in Heq. rewrite length_app in Heq. cbn in Heq. lia. }
  destruct (fs wb !! logfile_of out) as [[] |] eqn:E; try done;
    injection Hlog as <-; cbn; rewrite lookup_insert_eq, lookup_insert_ne by done;
    rewrite (Hf out (not_inside_self out)), He, Ht; done.
Qed.

(** X1: whenever [initialize] returns, under any policy and from any
    filesystem, the output directory is a directory and holds the log
    file, the environment is as before, and exactly the four logger
    events have been added to the log. *)
Theorem initialize_leaves_directory_and_log out lvl prev w w1 :
  initialize out lvl prev w = (Ok tt, w1) ->
  fs w1 !! out = Some Dir /\
  fs w1 !! logfile_of out = Some File /\
  environ w1 = environ w /\
  trace w1 = trace w ++ initialize_log out lvl.
Proof. apply initialize_Ok_inv. Qed.

(** X11: after a successful [initialize], starting again on the same
    output directory under the terminate policy is refused with
    [FileExistsError], and the refusal changes nothing. *)
Theorem rerun_under_terminate_is_refused out lvl lvl' prev w w1 :
  initialize out lvl prev w = (Ok tt, w1) ->
  initialize out lvl' terminate w1 = (Raise (FileExistsError out), w1).
Proof.
  intros (Hout & _)%initialize_Ok_inv.
  apply initialize_terminate_exists. by eexists.
Qed.

(** X2: whatever its outcome, [initialize] leaves every path outside the
    output directory as it was, except that a missing ancestor of the
    output directory may have been created as a directory. *)
Theorem initialize_confined_to_output_dir out lvl prev w r w' (q : path) :
  initialize out lvl prev w = (r, w') ->
  ~ out `prefix_of` q ->
  fs w' !! q = fs w !! q \/
  (q `prefix_of` out /\ fs w !! q = None /\ fs w' !! q = Some Dir).
Proof.
  intros Hi Hq.
  assert (Hnin : ~ strictly_inside out q) by (intros H; by apply Hq, inside_below).
  assert (Hnlog : q <> logfile_of out).
  { intros ->. apply Hq. by apply prefix_app_r. }
  rewrite initialize_stages in Hi.
  apply bind_inv in Hi as [(e & Hmk & _) | ([] & wa & Hmk & Hrest)].
  - left. unfold on_fs in Hmk. destruct (makedirs _ _ _) as [r0 f1] eqn:Hm.
    injection Hmk as -> <-. by rewrite (makedirs_Raise _ _ _ _ _ Hm).
  - assert (fs w' !! q = fs wa !! q) as ->.
    { apply bind_inv in Hrest as [(e & Hcl & _) | ([] & wb & Hcl & Hlog)].
      - apply clearing_effect in Hcl as (_ & _ & Hf). exact (Hf q Hnin).
      - apply clearing_effect in Hcl as (_ & _ & Hf). etrans; [| exact (Hf q Hnin)].
        rewrite logging_cases in Hlog.
        destruct (fs wb !! logfile_of out) as [[] |]; injection Hlog as <- <-;
          cbn; by rewrite ?lookup_insert_ne. }
    unfold on_fs in Hmk. destruct (makedirs _ _ _) as [r0 f1] eqn:Hm.
    injection Hmk as -> <-. cbn. apply makedirs_Ok in Hm as [_ Hm]. apply Hm.
Qed.

Lemma rmtree_ignore_absent (d : path) (f : fsmap) :
  f !! d <> Some Dir -> rmtree_ignore d f = f.
Proof. intros Hd. unfold rmtree_ignore, isdir. by rewrite bool_decide_eq_false_2. Qed.

Lemma lookup_after_rmtrees (out : path) (f : fsmap) (q : path) :
  rmtree_ignore (joinpath out "theano.cache") (rmtree_ignore (joinpath out "paths") f) !! q
  = if decide ((f !! joinpath out "paths" = Some Dir /\
                  joinpath out "paths" `prefix_of` q) \/
               (f !! joinpath out "theano.cache" = Some Dir /\
                  joinpath out "theano.cache" `prefix_of` q))
    then None else f !! q.
Proof.
  assert (Hcache : rmtree_ignore (joinpath out "paths") f !! joinpath out "theano.cache"
                   = f !! joinpath out "theano.cache").
  { rewrite lookup_rmtree_ignore. destruct (decide _) as [[_ Hp] | _]; [| done].
    by destruct (not_prefix_sibling out "paths" "theano.cache" [] ltac:(done) Hp). }
  rewrite lookup_rmtree_ignore, Hcache, lookup_rmtree_ignore.
  repeat destruct (decide _); try done; tauto.
Qed.

(** With nothing below the output directory there is nothing to clear. *)
Lemma clearing_nothing out prev w :
  (forall q : path, strictly_inside out q -> fs w !! q = None) ->
  clearing out prev w = (Ok tt, w).
Proof.
  intros Hempty. destruct w as [f e t]. cbn in Hempty.
  unfold clearing, bind at 1, get_fs. cbn [fs].
  destruct (_ && _); [| done].
  unfold bind at 1 2 3, on_fs at 1 2, get_fs. cbn [fs environ trace].
  rewrite (rmtree_ignore_absent (joinpath out "paths") f).
  2:{ rewrite Hempty; [done | by eexists]. }
  rewrite (rmtree_ignore_absent (joinpath out "theano.cache") f).
  2:{ rewrite Hempty; [done | by eexists]. }
  assert (glob_star_dot_star out f = []) as ->; [| done].
  apply elem_of_nil_inv. intros q [[k Hk] Hm]%elem_of_glob.
  apply glob_match_iff in Hm as (name & -> & _).
  rewrite Hempty in Hk; [done | by eexists].
Qed.

(** X4: on a location where nothing exists yet and no ancestor is a plain
    file, [initialize] succeeds under every policy: it creates the output
    directory with its missing ancestors and the log file, logs its four
    events, and leaves every existing entry as it was. *)
Theorem initialize_creates_fresh_output (out : path) lvl prev w :
  (forall q : path, out `prefix_of` q -> fs w !! q = None) ->
  (forall d : path, d `prefix_of` out -> fs w !! d <> Some File) ->
  initialize out lvl prev w
  = (Ok tt, World (<[logfile_of out := File]> (mkdir_all out (fs w))) (environ w)
              (trace w ++ initialize_log out lvl)) /\
  forall q : path, is_Some (fs w !! q) ->
    <[logfile_of out := File]> (mkdir_all out (fs w)) !! q = fs w !! q.
Proof.
  intros Hfresh Hanc.
  assert (Hbelow : forall q : path, strictly_inside out q -> mkdir_all out (fs w) !! q = None).
  { intros q Hq. rewrite lookup_mkdir_all, decide_False.
    - by apply Hfresh, inside_below.
    - intros Hp. destruct Hq as [name Hq]. apply prefix_length in Hp, Hq.
      unfold joinpath in Hq. rewrite length_app in Hq. cbn in Hq. lia. }
  split.
  - rewrite initialize_stages.
    rewrite (bind_Ok _ _ w tt (World (mkdir_all out (fs w)) (environ w) (trace w))).
    2:{ apply on_fs_Ok. unfold makedirs. rewrite (Hfresh out) by done.
        destruct (existsb _ _) eqn:E; [| done]. exfalso.
        apply existsb_exists in E as (d & Hd & Hfile).
        apply list_elem_of_In, prefixes_spec in Hd.
        apply bool_decide_eq_true in Hfile. by apply (Hanc d). }
    rewrite (bind_Ok _ _ _ tt _
               (clearing_nothing out prev
                  (World (mkdir_all out (fs w)) (environ w) (trace w)) Hbelow)).
    rewrite logging_cases. cbn [fs environ trace].
    rewrite Hbelow; [done | by exists "traversome.log.txt"].
  - intros q [k Hk].
    assert (Hnb : ~ out `prefix_of` q).
    { intros Hp. by rewrite (Hfresh q Hp) in Hk. }
    rewrite lookup_insert_ne.
    2:{ intros <-. apply Hnb. by apply prefix_app_r. }
    rewrite lookup_mkdir_all. destruct (decide _) as [Hp | _]; [| done].
    rewrite Hk. destruct k; [by destruct (Hanc q Hp) | done].
Qed.

(** Removing a list of distinct existing entries that holds a directory
    stops at a directory, with [IsADirectoryError]. *)
Lemma for_each_remove_hits_directory qs : forall w,
  NoDup qs -> (forall q, q ∈ qs -> is_Some (fs w !! q)) ->
  (exists q, q ∈ qs /\ fs w !! q = Some Dir) ->
  exists q w', for_each qs (fun q => on_fs (remove q)) w
               = (Raise (IsADirectoryError q), w') /\
    q ∈ qs /\ fs w !! q = Some Dir /\
    environ w' = environ w /\ trace w' = trace w.
Proof.
  induction qs as [| q0 qs IH]; intros w Hnd Hex (qd & Hqd & Hdir).
  { by apply elem_of_nil in Hqd. }
  apply NoDup_cons in Hnd as [Hnotin Hnd].
  destruct (Hex q0 ltac:(by left)) as [k Hk]. destruct k.
  - destruct (IH (World (delete q0 (fs w)) (environ w) (trace w)) Hnd)
      as (q & w' & Hrun & Hq & Hqdir & He & Ht).
    + intros q Hq. cbn. rewrite lookup_delete_ne; [apply Hex; by right |].
      intros ->. by apply Hnotin.
    + exists qd. apply elem_of_cons in Hqd as [-> | Hqd]; [congruence |].
      split; [done |]. cbn. rewrite lookup_delete_ne; [done |].
      intros ->. by apply Hnotin.
    + exists q, w'. cbn [for_each]. split.
      * unfold bind at 1, on_fs at 1, remove at 1. by rewrite Hk.
      * split; [by right |]. split; [| done].
        cbn in Hqdir. rewrite lookup_delete_ne in Hqdir; [done |].
        intros ->. by apply Hnotin.
  - exists q0, w. cbn [for_each]. split.
    + unfold bind, on_fs, remove. rewrite Hk. by destruct w.
    + split; [by left | done].
Qed.

(** X3: under the overwrite policy, an output directory that holds a
    directory with a dotted name other than [theano.cache] makes
    [initialize] fail with [IsADirectoryError] on a dotted directory of
    the output directory, before anything is logged. *)
Theorem overwrite_stops_at_dotted_directory out lvl w name :
  fs w !! out = Some Dir ->
  matches_star_dot_star name = true -> name <> "theano.cache" ->
  fs w !! joinpath out name = Some Dir ->
  exists q w',
    initialize out lvl overwrite w = (Raise (IsADirectoryError q), w') /\
    glob_match out q = true /\ fs w !! q = Some Dir /\
    trace w' = trace w /\ environ w' = environ w.
Proof.
  intros Hout Hm Hname Hdir.
  set (f2 := rmtree_ignore (joinpath out "theano.cache")
               (rmtree_ignore (joinpath out "paths") (fs w))).
  assert (Hkept : f2 !! joinpath out name = Some Dir).
  { unfold f2. rewrite lookup_after_rmtrees, decide_False; [done |].
    intros [[_ Hp] | [_ Hp]].
    - destruct (decide ("paths" = name)) as [<- | Hne]; [done |].
      by apply (not_prefix_sibling out "paths" name []).
    - destruct (decide ("theano.cache" = name)) as [<- | Hne]; [done |].
      by apply (not_prefix_sibling out "theano.cache" name []). }
  destruct (for_each_remove_hits_directory (glob_star_dot_star out f2)
              (World f2 (environ w) (trace w)) (NoDup_glob _ _))
    as (q & w' & Hrun & Hq & Hqdir & He & Ht).
  { by intros q [? _]%elem_of_glob. }
  { exists (joinpath out name). split; [| done]. apply elem_of_glob.
    split; [by eexists |]. apply glob_match_iff. by exists name. }
  exists q, w'. apply elem_of_glob in Hq as [_ Hq]. cbn in Hqdir, He, Ht.
  split; [| split; [done | split; [| done]]].
  - rewrite initialize_stages.
    assert (in_overwrite_resume overwrite = true) as -> by by vm_compute.
    rewrite (bind_Ok _ _ w tt w).
    2:{ unfold on_fs, makedirs. rewrite Hout. by destruct w. }
    apply bind_Raise. unfold clearing.
    rewrite (bind_Ok get_fs _ w (fs w) w eq_refl).
    assert (bool_decide (Previous_value overwrite = "overwrite") = true) as -> by by vm_compute.
    assert (isdir (fs w) out = true) as -> by by apply bool_decide_eq_true.
    cbn [andb].
    rewrite (bind_Ok _ _ w tt
               (World (rmtree_ignore (joinpath out "paths") (fs w)) (environ w) (trace w))
               eq_refl).
    rewrite (bind_Ok _ _ (World (rmtree_ignore (joinpath out "paths") (fs w))
                            (environ w) (trace w)) tt
               (World f2 (environ w) (trace w)) eq_refl).
    rewrite (bind_Ok get_fs _ (World f2 (environ w) (trace w)) f2
               (World f2 (environ w) (trace w)) eq_refl).
    exact Hrun.
  - unfold f2 in Hqdir. rewrite lookup_after_rmtrees in Hqdir.
    by destruct (decide _).
Qed.

(** X13: only the overwrite policy removes anything: under the terminate
    and resume policies every entry that exists before [initialize]
    exists unchanged after it, whatever the outcome. *)
Theorem only_overwrite_removes out lvl prev w r w' (q : path) k :
  prev <> overwrite ->
  initialize out lvl prev w = (r, w') ->
  fs w !! q = Some k -> fs w' !! q = Some k.
Proof.
  intros Hprev Hi Hk. rewrite initialize_stages in Hi.
  apply bind_inv in Hi as [(e & Hmk & _) | ([] & wa & Hmk & Hrest)].
  - unfold on_fs in Hmk. destruct (makedirs _ _ _) as [r0 f1] eqn:Hm.
    injection Hmk as -> <-. by rewrite (makedirs_Raise _ _ _ _ _ Hm).
  - assert (Hka : fs wa !! q = Some k).
    { unfold on_fs in Hmk. destruct (makedirs _ _ _) as [r0 f1] eqn:Hm.
      injection Hmk as -> <-. cbn. apply makedirs_Ok in Hm as [_ Hm].
      destruct (Hm q) as [Heq | (_ & Hnone & _)];
        [| by pose proof (eq_trans (eq_sym Hk) Hnone)].
      etrans; [exact Heq | exact Hk]. }
    assert (Hclear : clearing out prev wa = (Ok tt, wa)).
    { unfold clearing, bind, get_fs.
      assert (bool_decide (Previous_value prev = "overwrite") = false) as ->; [| done].
      by destruct prev. }
    rewrite (bind_Ok _ _ _ _ _ Hclear), logging_cases in Hrest.
    destruct (fs wa !! logfile_of out) as [[] |] eqn:E; injection Hrest as <- <-; cbn;
      try done;
      (destruct (decide (q = logfile_of out)) as [-> | Hne];
       [rewrite lookup_insert_eq; congruence | by rewrite lookup_insert_ne]).
Qed.

End InitializeFacts.

(** ** More on the command *)

Section RunFacts.

Import Cli.

Variable py_isdigit : string -> bool.
Variable py_int : string -> result Z.
Variable py_float : string -> result Q.
Variable py_eval : string -> M pyval.
Variable Traversome : Type.
Variable Traversome_init : Traversome_args -> fsmap -> result Traversome * fsmap.
Variable Traversome_run : Traversome -> VarGen -> bool -> fsmap -> result unit * fsmap.

Abbreviation parse_graph_selection :=
  (Cli.parse_graph_selection py_isdigit py_int py_float py_eval).
Abbreviation construct_and_run :=
  (Cli.construct_and_run py_isdigit py_int py_float py_eval
     Traversome Traversome_init Traversome_run).
Abbreviation thorough_body :=
  (Cli.thorough_body py_isdigit py_int py_float py_eval
     Traversome Traversome_init Traversome_run).
Abbreviation thorough :=
  (Cli.thorough py_isdigit py_int py_float py_eval
     Traversome Traversome_init Traversome_run).

Lemma check_inputs_Ok_same o w w0 : check_inputs o w = (Ok tt, w0) -> w0 = w.
Proof.
  rewrite check_inputs_cases.
  destruct (reads_file o) as [p |], (alignment_file o) as [q |]; try done.
  - destruct (exists_ (fs w) p); by intros [= <-].
  - destruct (exists_ (fs w) q); by intros [= <-].
Qed.

Lemma thorough_stops_at_initialize o w e w1 :
  check_inputs o w = (Ok tt, w) ->
  initialize (output_dir o) (log_level o) (prev_run o) w = (Raise e, w1) ->
  thorough o w = (Raise e, w1).
Proof.
  intros Hc Hi. unfold Cli.thorough. rewrite (bind_Ok _ _ _ _ _ Hc).
  by apply bind_Raise.
Qed.




(** *** When the estimator is entered *)

Lemma no_call_among evs a :
  Forall (fun ev => ~ is_estimator_call ev) evs -> CallTraversome a ∉ evs.
Proof.
  intros Hall Hin. rewrite Forall_forall in Hall. by apply (Hall _ Hin).
Qed.

(** A selection given as digits or with a dot is parsed without
    evaluating anything: the world stays as it is. *)
Lemma parse_plain s w :
  py_isdigit s = true \/ contains_char "." s = true ->
  (parse_graph_selection s w).2 = w /\
  forall w', (parse_graph_selection s w').1 = (parse_graph_selection s w).1.
Proof.
  intros Hplain. unfold Cli.parse_graph_selection.
  destruct (py_isdigit s); [done |].
  destruct Hplain as [? | ->]; done.
Qed.

(** The events of the construction and run of the estimator. *)
Lemma construct_and_run_trace o w sel r w' :
  parse_graph_selection (graph_component_selection o) w = (Ok sel, w) ->
  construct_and_run o w = (r, w') ->
  exists evs, trace w' = trace w ++ CallTraversome (traversome_args o sel) :: evs /\
    forall a, CallTraversome a ∉ evs.
Proof.
  intros Hp. unfold Cli.construct_and_run, bind, on_fs, emit. rewrite Hp. cbn.
  destruct (Traversome_init _ _) as [[t | e] f1]; cbn.
  - destruct (Traversome_run _ _ _ _) as [r0 f2]. intros [= <- <-]. cbn.
    eexists. rewrite <- app_assoc. split; [done |].
    intros a [? | ?%elem_of_nil]%elem_of_cons; done.
  - intros [= <- <-]. cbn. exists []. split; [done |]. intros a. apply not_elem_of_nil.
Qed.

(** X7: with a selection given as digits or with a dot, so that nothing
    is evaluated, the estimator is entered only after every check of the
    command has passed: if a run of [thorough] adds an entry into the
    constructor to the log, then the input check and [initialize]
    succeeded, the generating scheme is the heuristic one, the search
    bounds are in order, the selection string was parsed, and the
    constructor got the arguments built from the options and that
    selection. *)
Theorem estimator_entered_only_after_validation o w a :
  py_isdigit (graph_component_selection o) = true \/
  contains_char "." (graph_component_selection o) = true ->
  CallTraversome a ∈ trace (snd (thorough o w)) ->
  CallTraversome a ∉ trace w ->
  fst (check_inputs o w) = Ok tt /\
  fst (initialize (output_dir o) (log_level o) (prev_run o) w) = Ok tt /\
  var_gen_scheme o = Heuristic /\
  (min_valid_search o <= max_valid_search o)%Z /\
  exists sel, fst (parse_graph_selection (graph_component_selection o) w) = Ok sel /\
    a = traversome_args o sel.
Proof.
  intros Hplain Hin Hold.
  destruct (check_inputs o w) as [rc w0] eqn:Hc.
  destruct (emits_only_check_inputs o w rc w0 Hc) as (evc & Htc & Hfc).
  destruct rc as [[] | e].
  2:{ rewrite (thorough_stops_at_check _ _ _ _ _ _ _ o w e w0 Hc) in Hin. cbn in Hin.
      rewrite Htc in Hin. apply elem_of_app in Hin as [? | Hin]; [done |].
      by destruct (no_call_among evc a Hfc). }
  apply check_inputs_Ok_same in Hc as Hw. subst w0. clear evc Htc Hfc.
  destruct (initialize (output_dir o) (log_level o) (prev_run o) w) as [ri w1] eqn:Hi.
  destruct (emits_only_initialize _ _ _ w ri w1 Hi) as (evi & Hti & Hfi).
  destruct ri as [[] | e].
  2:{ rewrite (thorough_stops_at_initialize o w e w1 Hc Hi) in Hin. cbn in Hin.
      rewrite Hti in Hin. apply elem_of_app in Hin as [? | Hin]; [done |].
      by destruct (no_call_among evi a Hfi). }
  assert (Hw1 : CallTraversome a ∉ trace w1).
  { rewrite Hti. intros [? | ?]%elem_of_app; [done |].
    by destruct (no_call_among evi a Hfi). }
  assert (Hstop : forall e, thorough_body o w1 = (Raise e, with_cache_flags o w1) -> False).
  { intros e Hb.
    rewrite (thorough_run_phase _ _ _ _ _ _ _ o w w1 _ Hc Hi (try_except_Raise _ _ _ _ Hb))
      in Hin.
    rewrite logged_logged in Hin. cbn in Hin.
    apply elem_of_app in Hin as [? | Hin]; [done |].
    destruct (decide (e = SystemExit)); cbn in Hin;
      repeat (apply elem_of_cons in Hin as [? | Hin]; [done |]);
      by apply elem_of_nil in Hin. }
  pose proof (thorough_body_cases py_isdigit py_int py_float py_eval
                Traversome Traversome_init Traversome_run o w1) as Hcases.
  destruct (decide (var_gen_scheme o = Provided)) as [? | Hscheme];
    [by destruct (Hstop _ Hcases) |].
  destruct (max_valid_search o <? min_valid_search o)%Z eqn:Hb;
    [by destruct (Hstop _ Hcases) |].
  destruct (parse_plain (graph_component_selection o) (with_cache_flags o w1) Hplain)
    as [Hsame Hany].
  destruct (parse_graph_selection (graph_component_selection o) (with_cache_flags o w1))
    as [[sel | e] wp] eqn:Hp; cbn in Hsame; subst wp.
  2:{ rewrite (construct_and_run_bad_selection _ _ _ _ _ _ _ o _ _ e Hp) in Hcases.
      by destruct (Hstop _ Hcases). }
  split; [done |]. split; [done |].
  split; [by destruct (var_gen_scheme o) |]. split; [lia |].
  exists sel. split; [by rewrite (Hany w) |].
  destruct (construct_and_run o (with_cache_flags o w1)) as [rb wb] eqn:Hrun.
  destruct (construct_and_run_trace o _ sel rb wb Hp Hrun) as (evs & Htb & Hnone).
  cbn in Htb.
  assert (Hfinal : exists tail, trace (snd (thorough o w))
                     = trace wb ++ tail /\ CallTraversome a ∉ tail).
  { destruct rb as [[] | e].
    - rewrite (thorough_run_phase _ _ _ _ _ _ _ o w w1 _ Hc Hi (try_except_Ok _ _ _ Hcases)).
      eexists. split; [done |].
      intros [? | ?%elem_of_nil]%elem_of_cons; done.
    - rewrite (thorough_run_phase _ _ _ _ _ _ _ o w w1 _ Hc Hi
                 (try_except_Raise _ _ _ _ Hcases)).
      rewrite logged_logged. eexists. split; [done |].
      intros Htail. destruct (decide (e = SystemExit)); cbn in Htail;
        repeat (apply elem_of_cons in Htail as [? | Htail]; [done |]);
        by apply elem_of_nil in Htail. }
  destruct Hfinal as (tail & Hfin & Htail). rewrite Hfin, Htb in Hin.
  apply elem_of_app in Hin as [Hin | ?]; [| done].
  apply elem_of_app in Hin as [? | Hin]; [done |].
  apply elem_of_cons in Hin as [[= ->] | Hin]; [done |].
  by destruct (Hnone a).
Qed.

(** *** The three forms of a selection *)


Lemma pretty_digit m :
  (m < 10)%N ->
  is_digit_char (pretty_N_char m) = true /\
  (Z.of_nat (nat_of_ascii (pretty_N_char m)) - 48 = Z.of_N m)%Z.
Proof.
  intros Hm.
  assert (m = 0 \/ m = 1 \/ m = 2 \/ m = 3 \/ m = 4 \/ m = 5 \/ m = 6 \/
          m = 7 \/ m = 8 \/ m = 9)%N as H by lia.
  repeat destruct H as [-> | H]; try subst m; by vm_compute.
Qed.

Lemma pretty_N_go_all_digits x : forall s,
  all_digits (pretty_N_go x s) = all_digits s.
Proof.
  induction (N.lt_wf_0 x) as [x _ IH]; intros s.
  destruct (decide (x = 0)%N) as [-> | Hx]; [done |].
  rewrite pretty_N_go_step by lia. rewrite IH by (apply N.div_lt; lia).
  cbn [all_digits]. by rewrite (proj1 (pretty_digit (x mod 10) ltac:(by apply N.mod_lt))).
Qed.

Lemma pretty_N_go_value x :
  exists k, (0 <= k)%Z /\
    forall acc s, int_digits_acc acc (pretty_N_go x s)
                  = int_digits_acc (acc * 10 ^ k + Z.of_N x)%Z s.
Proof.
  induction (N.lt_wf_0 x) as [x _ IH].
  destruct (decide (x = 0)%N) as [-> | Hx].
  { exists 0%Z. split; [done |]. intros acc s. rewrite pretty_N_go_0. f_equal. lia. }
  destruct (IH (x `div` 10)%N ltac:(apply N.div_lt; lia)) as (k & Hk & Hval).
  exists (k + 1)%Z. split; [lia |]. intros acc s.
  rewrite pretty_N_go_step by lia. rewrite Hval. cbn [int_digits_acc].
  rewrite (proj2 (pretty_digit (x mod 10) ltac:(by apply N.mod_lt))).
  f_equal. rewrite Z.pow_add_r by lia. rewrite Z.pow_1_r.
  pose proof (N.div_mod x 10 ltac:(done)) as Hdm.
  assert (Z.of_N x = 10 * Z.of_N (x `div` 10) + Z.of_N (x `mod` 10))%Z as -> by lia.
  ring.
Qed.

Lemma pretty_isdigit (n : N) : isdigit (pretty n) = true.
Proof.
  unfold pretty, pretty_N. destruct (decide (n = 0)%N) as [-> | Hn]; [done |].
  destruct (pretty_N_go_value n) as (k & Hk & Hval).
  pose proof (pretty_N_go_all_digits n "") as Hall. cbn [all_digits] in Hall.
  unfold isdigit. destruct (pretty_N_go n "") eqn:E; [| done].
  exfalso. specialize (Hval 0%Z ""). rewrite E in Hval. cbn in Hval. lia.
Qed.

Lemma pretty_int_of_digits (n : N) : int_of_digits (pretty n) = Z.of_N n.
Proof.
  destruct (pretty_N_go_value n) as (k & Hk & Hval).
  unfold pretty, pretty_N. destruct (decide (n = 0)%N) as [-> | Hn]; [done |].
  unfold int_of_digits. rewrite Hval. cbn. lia.
Qed.

(** X9: with [str.isdigit] and [int] as they are on ASCII digits, the
    decimal numeral of a natural number selects that rank index as long
    as it has no more digits than [int] converts; a longer numeral makes
    [int] raise [ValueError]. *)
Theorem decimal_numeral_selects_index (n : N) w :
  let parse := Cli.parse_graph_selection isdigit int_of_ascii_digits py_float py_eval in
  ((String.length (pretty n) <= int_max_str_digits)%nat ->
   parse (pretty n) w = (Ok (SelInt (Z.of_N n)), w)) /\
  ((int_max_str_digits < String.length (pretty n))%nat ->
   exists msg, parse (pretty n) w = (Raise (ValueError msg), w)).
Proof.
  cbv zeta. unfold Cli.parse_graph_selection, int_of_ascii_digits.
  rewrite pretty_isdigit, pretty_int_of_digits.
  destruct (int_max_str_digits <? String.length (pretty n))%nat eqn:E.
  - apply Nat.ltb_lt in E. split; [lia |]. intros _. by eexists.
  - apply Nat.ltb_ge in E. split; [done | lia].
Qed.

End RunFacts.

(** ** The command text of the banner *)

Section EnvInfoFacts.

Import EnvInfo.

Lemma append_String c s t : String c s +:+ t = String c (s +:+ t).
Proof. reflexivity. Qed.

Lemma append_nil_l s : "" +:+ s = s.
Proof. reflexivity. Qed.

Lemma append_nil_r s : s +:+ "" = s.
Proof. induction s as [| c s IH]; [done |]. by rewrite append_String, IH. Qed.

Lemma append_assoc s t u : (s +:+ t) +:+ u = s +:+ (t +:+ u).
Proof. induction s as [| c s IH]; [done |]. by rewrite !append_String, IH. Qed.

Lemma contains_char_head c s : contains_char c (String c s) = true.
Proof. cbn [contains_char]. by rewrite Ascii.eqb_refl. Qed.

(** Two texts free of the delimiter, each followed by nothing or by the
    delimiter, are equal when the whole texts are. *)
Lemma split_at_delimiter (c : ascii) a : forall b r1 r2,
  contains_char c a = false -> contains_char c b = false ->
  (r1 = "" \/ exists t, r1 = String c t) ->
  (r2 = "" \/ exists t, r2 = String c t) ->
  a +:+ r1 = b +:+ r2 -> a = b /\ r1 = r2.
Proof.
  induction a as [| y a IH]; intros [| x b] r1 r2 Ha Hb Hr1 Hr2;
    rewrite ?append_String, ?append_nil_l.
  - by intros H.
  - intros ->. exfalso.
    destruct Hr1 as [[=] | [t [= -> _]]]. by rewrite contains_char_head in Hb.
  - intros <-. exfalso.
    destruct Hr2 as [[=] | [t [= -> _]]]. by rewrite contains_char_head in Ha.
  - intros [= -> Heq].
    cbn [contains_char] in Ha, Hb.
    apply orb_false_iff in Ha as [_ Ha]. apply orb_false_iff in Hb as [_ Hb].
    by destruct (IH b r1 r2 Ha Hb Hr1 Hr2 Heq) as [-> ->].
Qed.

Lemma quote_arg_split a b r1 r2 :
  quote_free a -> quote_free b ->
  (r1 = "" \/ exists t, r1 = String " " t) ->
  (r2 = "" \/ exists t, r2 = String " " t) ->
  quote_arg a +:+ r1 = quote_arg b +:+ r2 -> a = b /\ r1 = r2.
Proof.
  unfold quote_free, quote_arg. intros Ha Hb Hr1 Hr2.
  destruct (contains_char " " a) eqn:Hsa, (contains_char " " b) eqn:Hsb.
  - rewrite !append_assoc, !append_String. intros [= Heq].
    destruct (split_at_delimiter dquote a b _ _ Ha Hb
                ltac:(right; by eexists) ltac:(right; by eexists) Heq) as [-> Hr].
    split; [done |]. rewrite !append_nil_l in Hr. by injection Hr.
  - rewrite append_assoc, append_String. intros Heq. exfalso.
    destruct b as [| x b].
    + rewrite append_nil_l in Heq. destruct Hr2 as [-> | [t ->]]; [done |]. by injection Heq.
    + rewrite append_String in Heq. injection Heq as <- _.
      by rewrite contains_char_head in Hb.
  - rewrite append_assoc, append_String. intros Heq. exfalso.
    destruct a as [| y a].
    + rewrite append_nil_l in Heq. destruct Hr1 as [-> | [t ->]]; [done |]. by injection Heq.
    + rewrite append_String in Heq. injection Heq as -> _.
      by rewrite contains_char_head in Ha.
  - by apply (split_at_delimiter " ").
Qed.

Lemma command_line_cons a l :
  command_line (a :: l)
  = quote_arg a +:+ match l with [] => "" | _ => String " " (command_line l) end.
Proof. destruct l; [by rewrite append_nil_r | done]. Qed.

(** X12: the command text of the banner determines the arguments, as
    long as none of them holds a double quote: two non-empty argument
    lists without double quotes that give the same text are equal. *)
Theorem command_line_injective argv1 : forall argv2,
  argv1 <> [] -> argv2 <> [] ->
  Forall quote_free argv1 -> Forall quote_free argv2 ->
  command_line argv1 = command_line argv2 -> argv1 = argv2.
Proof.
  induction argv1 as [| a l IH]; intros [| b m] Hne1 Hne2 Hq1 Hq2; try done.
  apply Forall_cons in Hq1 as [Ha Hl]. apply Forall_cons in Hq2 as [Hb Hm].
  rewrite !command_line_cons. intros Heq.
  apply quote_arg_split in Heq as [-> Hrest]; try done.
  - f_equal. destruct l as [| a' l], m as [| b' m]; try done.
    injection Hrest as Hrest. by apply IH.
  - destruct l; [by left | right; by eexists].
  - destruct m; [by left | right; by eexists].
Qed.

(** Without the proviso the text is ambiguous: one argument with a space
    and two arguments with double quotes give the same text. *)
Example command_line_ambiguous :
  command_line ["a b"]
  = command_line [String dquote "a"; String "b" (String dquote "")].
Proof. by vm_compute. Qed.

End EnvInfoFacts.

(** ** The further properties at concrete runs *)

(** A first start on the fresh filesystem. *)
Lemma initialize_leaves_directory_and_log_witness :
  let w := Samples.world_of Samples.fresh_fs in
  let w1 := snd (Cli.initialize Samples.out Cli.INFO Cli.terminate w) in
  Cli.fs w1 !! Samples.out = Some Dir /\
  Cli.fs w1 !! Cli.logfile_of Samples.out = Some File /\
  Cli.environ w1 = Cli.environ w /\
  Cli.trace w1 = Cli.trace w ++ Cli.initialize_log Samples.out Cli.INFO.
Proof.
  intros w w1.
  apply (initialize_leaves_directory_and_log Samples.out Cli.INFO Cli.terminate w w1).
  vm_compute. reflexivity.
Defined.

(** A second start after the first one, under the default policy. *)
Lemma rerun_under_terminate_is_refused_witness :
  let w := Samples.world_of Samples.fresh_fs in
  let w1 := snd (Cli.initialize Samples.out Cli.INFO Cli.terminate w) in
  Cli.initialize Samples.out Cli.DEBUG Cli.terminate w1
  = (Raise (FileExistsError Samples.out), w1).
Proof.
  intros w w1.
  apply (rerun_under_terminate_is_refused Samples.out Cli.INFO Cli.DEBUG Cli.terminate w w1).
  vm_compute. reflexivity.
Defined.

(** Overwriting the used output directory leaves the graph file alone. *)
Lemma initialize_confined_to_output_dir_witness :
  let w := Samples.world_of Samples.used_fs in
  let w' := snd (Cli.initialize Samples.out Cli.INFO Cli.overwrite w) in
  Cli.fs w' !! Samples.graph_gfa = Cli.fs w !! Samples.graph_gfa \/
  (Samples.graph_gfa `prefix_of` Samples.out /\
   Cli.fs w !! Samples.graph_gfa = None /\ Cli.fs w' !! Samples.graph_gfa = Some Dir).
Proof.
  intros w w'.
  apply (initialize_confined_to_output_dir Samples.out Cli.INFO Cli.overwrite w
           (fst (Cli.initialize Samples.out Cli.INFO Cli.overwrite w)) w'
           Samples.graph_gfa).
  - unfold w'. by destruct (Cli.initialize _ _ _ _).
  - intros [k Hk]. discriminate.
Defined.

(** Overwriting the output directory that holds [old.results/]. *)
Lemma overwrite_stops_at_dotted_directory_witness :
  let w := Samples.world_of MoreSamples.cluttered_fs in
  exists q w',
    Cli.initialize Samples.out Cli.INFO Cli.overwrite w
    = (Raise (IsADirectoryError q), w') /\
    glob_match Samples.out q = true /\ Cli.fs w !! q = Some Dir /\
    Cli.trace w' = Cli.trace w /\ Cli.environ w' = Cli.environ w.
Proof.
  intros w.
  apply (overwrite_stops_at_dotted_directory Samples.out Cli.INFO w "old.results").
  - vm_compute. reflexivity.
  - reflexivity.
  - discriminate.
  - vm_compute. reflexivity.
Defined.

(** A start on the fresh filesystem under the resume policy. *)
Lemma initialize_creates_fresh_output_witness :
  let w := Samples.world_of Samples.fresh_fs in
  Cli.initialize Samples.out Cli.INFO Cli.resume w
  = (Ok tt, Cli.World (<[Cli.logfile_of Samples.out := File]>
                         (mkdir_all Samples.out (Cli.fs w))) (Cli.environ w)
              (Cli.trace w ++ Cli.initialize_log Samples.out Cli.INFO)) /\
  forall q : path, is_Some (Cli.fs w !! q) ->
    <[Cli.logfile_of Samples.out := File]> (mkdir_all Samples.out (Cli.fs w)) !! q
    = Cli.fs w !! q.
Proof.
  intros w.
  apply (initialize_creates_fresh_output Samples.out Cli.INFO Cli.resume w).
  - intros q [k ->]. apply not_elem_of_list_to_map_1. cbn.
    intros Hin. repeat (apply elem_of_cons in Hin as [Hin | Hin]; [discriminate |]).
    by apply elem_of_nil in Hin.
  - intros d Hd Hfile. apply elem_of_list_to_map_2 in Hfile.
    repeat (apply elem_of_cons in Hfile as [Hfile | Hfile];
            [injection Hfile as Hfile; try discriminate; subst d;
             apply prefix_cons_inv_1 in Hd; discriminate |]).
    by apply elem_of_nil in Hfile.
Defined.


(** The same run: the constructor was entered, so every check passed. *)
Lemma estimator_entered_only_after_validation_witness :
  let o := Samples.default_options in
  let w := Samples.world_of Samples.fresh_fs in
  fst (Cli.check_inputs o w) = Ok tt /\
  fst (Cli.initialize (Cli.output_dir o) (Cli.log_level o) (Cli.prev_run o) w) = Ok tt /\
  Cli.var_gen_scheme o = Cli.Heuristic /\
  (Cli.min_valid_search o <= Cli.max_valid_search o)%Z /\
  exists sel,
    fst (Samples.parse (Cli.graph_component_selection o) w) = Ok sel /\
    Cli.traversome_args o (Cli.SelInt 0) = Cli.traversome_args o sel.
Proof.
  intros o w.
  apply (estimator_entered_only_after_validation isdigit int_of_ascii_digits
           Samples.decimal_float (Samples.without_effects Samples.eval_fragment)
           unit Samples.quiet_init Samples.quiet_run o w
           (Cli.traversome_args o (Cli.SelInt 0))).
  - left. reflexivity.
  - apply list_elem_of_In. vm_compute. tauto.
  - apply not_elem_of_nil.
Defined.


(** The numeral of 12 selects index 12. *)
Lemma decimal_numeral_selects_index_witness :
  Samples.parse "12" (Samples.world_of Samples.fresh_fs)
  = (Ok (Cli.SelInt 12), Samples.world_of Samples.fresh_fs).
Proof.
  apply (proj1 (decimal_numeral_selects_index Samples.decimal_float
                  (Samples.without_effects Samples.eval_fragment) 12%N
                  (Samples.world_of Samples.fresh_fs))).
  vm_compute. lia.
Defined.


(** The theorem at the sample arguments, whose last one holds a space. *)
Lemma command_line_injective_witness :
  MoreSamples.sample_argv = ["traversome"; "thorough"; "-o"; "my out"].
Proof.
  apply (command_line_injective MoreSamples.sample_argv
           ["traversome"; "thorough"; "-o"; "my out"]).
  - discriminate.
  - discriminate.
  - repeat constructor.
  - repeat constructor.
  - vm_compute. reflexivity.
Defined.

(** Resuming on the used output directory keeps the earlier results. *)
Lemma only_overwrite_removes_witness :
  let w := Samples.world_of Samples.used_fs in
  let w' := snd (Cli.initialize Samples.out Cli.INFO Cli.resume w) in
  Cli.fs w' !! (Samples.out ++ ["variants.info.tab"]) = Some File.
Proof.
  intros w w'.
  apply (only_overwrite_removes Samples.out Cli.INFO Cli.resume w
           (fst (Cli.initialize Samples.out Cli.INFO Cli.resume w)) w').
  - discriminate.
  - unfold w'. by destruct (Cli.initialize _ _ _ _).
  - vm_compute. reflexivity.
Defined.
